(** * guac, ent backend helpers: identity and batching utilities

    A shallow embedding of [pkg/assembler/backends/ent/backend/helpers.go]
    and of the library functions it calls ([strings.Split], [strings.Join],
    [sha256], [uuid.NewHash]), followed by the properties of the global-ID
    codec, the content-addressed ID generator, the node ID resolver, the
    optional predicate helper and the chunker.

    Conventions.
    - A Go [string] is a [string] of 8-bit characters (Go strings are byte
      sequences); [[]byte] is [list byte].
    - A Go [int] is a [Z] in the 64-bit two's complement range; arithmetic
      that can leave the range is wrapped with [wrap_int] (all targets of
      the repository are 64-bit).
    - A call either returns or panics: [outcome].  A run-time panic keeps
      the text of the Go run-time error. *)

From Stdlib Require Import ZArith List String Ascii Bool Lia.
From Stdlib Require Import Init.Byte Strings.Byte.
Import ListNotations.

Local Open Scope string_scope.
Local Open Scope Z_scope.

(** ** Calls that may panic *)

Inductive outcome (A : Type) : Type :=
| Return (a : A)
| Panics (msg : string).
Arguments Return {A} a.
Arguments Panics {A} msg.

Definition bind {A B} (m : outcome A) (k : A -> outcome B) : outcome B :=
  match m with
  | Return a => k a
  | Panics msg => Panics msg
  end.

Notation "x <- m ;; k" := (bind m (fun x => k))
  (at level 61, m at next level, right associativity).

Definition returns {A} (m : outcome A) : Prop := exists a, m = Return a.

(** ** Go integers *)

Module GoInt.

Definition MaxInt : Z := 9223372036854775807.
Definition MinInt : Z := -9223372036854775808.

(** Two's complement wrap-around of a 64-bit [int]. *)
Definition wrap_int (z : Z) : Z := (z + 2 ^ 63) mod 2 ^ 64 - 2 ^ 63.

Definition add (a b : Z) : Z := wrap_int (a + b).
Definition mul (a b : Z) : Z := wrap_int (a * b).
(** [/] truncates toward zero and [%] takes the sign of the dividend. *)
Definition div (a b : Z) : Z := wrap_int (Z.quot a b).
Definition rem (a b : Z) : Z := Z.rem a b.

Definition in_range (z : Z) : Prop := MinInt <= z <= MaxInt.

End GoInt.

(** [len] of a slice and of a string. *)
Definition len {T} (s : list T) : Z := Z.of_nat (List.length s).
Definition slen (s : string) : Z := Z.of_nat (String.length s).

(** [s[i]] on a slice: a run-time panic outside [0 <= i < len(s)]. *)
Definition index {T} (s : list T) (i : Z) : outcome T :=
  if (0 <=? i) && (i <? len s) then
    match nth_error s (Z.to_nat i) with
    | Some x => Return x
    | None => Panics "index out of range"
    end
  else Panics "index out of range".

(** [s[lo:hi]] on a slice whose capacity is its length: a run-time panic
    unless [0 <= lo <= hi <= len(s)]. *)
Definition slice {T} (s : list T) (lo hi : Z) : outcome (list T) :=
  if (0 <=? lo) && (lo <=? hi) && (hi <=? len s) then
    Return (firstn (Z.to_nat (hi - lo)) (skipn (Z.to_nat lo) s))
  else Panics "slice bounds out of range".

(** ** Package [strings] *)

Module strings.

(** [s[lo:hi]], [s[:hi]] and [s[lo:]] on strings, as the library uses them
    (always within bounds there). *)
Definition sub (s : string) (lo hi : Z) : string :=
  substring (Z.to_nat lo) (Z.to_nat (hi - lo)) s.
Definition slice_to (s : string) (hi : Z) : string := sub s 0 hi.
Definition slice_from (s : string) (lo : Z) : string := sub s lo (slen s).

Fixpoint HasPrefix (s prefix : string) : bool :=
  match prefix with
  | EmptyString => true
  | String c prefix' =>
      match s with
      | EmptyString => false
      | String d s' => Ascii.eqb d c && HasPrefix s' prefix'
      end
  end.

(** [Index(s, substr)]: the index of the first instance of [substr] in
    [s], or [-1]. *)
Fixpoint Index (s substr : string) : Z :=
  if HasPrefix s substr then 0
  else match s with
       | EmptyString => -1
       | String _ s' =>
           let r := Index s' substr in
           if r <? 0 then -1 else r + 1
       end.

(** [Contains(s, substr)] is [Index(s, substr) >= 0]. *)
Definition Contains (s substr : string) : bool := 0 <=? Index s substr.

(** The loop of [Count]: [for { i := Index(s, substr); if i == -1 { return n };
    n++; s = s[i+len(substr):] }].  Each turn removes at least one byte of
    [s] when [substr] is not empty, so [length s] turns are enough. *)
Fixpoint Count_loop (turns : nat) (s substr : string) (n : Z) : Z :=
  match turns with
  | O => n
  | S turns' =>
      let i := Index s substr in
      if i =? -1 then n
      else Count_loop turns' (slice_from s (i + slen substr)) substr (n + 1)
  end.

(** [Count(s, substr)]: the number of non-overlapping instances.  For the
    empty [substr] Go returns the number of runes plus one; the byte count
    stands for the rune count here (exact on ASCII text, and helpers.go
    never passes an empty separator). *)
Definition Count (s substr : string) : Z :=
  if slen substr =? 0 then slen s + 1
  else Count_loop (String.length s) s substr 0.

(** [explode]: one string per character (per byte here, see [Count]). *)
Fixpoint explode (s : string) : list string :=
  match s with
  | EmptyString => []
  | String c s' => String c EmptyString :: explode s'
  end.

(** The loop of [genSplit]: at most [n-1] cuts, the rest of [s] last. *)
Fixpoint genSplit_loop (cuts : nat) (s sep : string) : list string :=
  match cuts with
  | O => [s]
  | S cuts' =>
      let m := Index s sep in
      if m <? 0 then [s]
      else slice_to s m :: genSplit_loop cuts' (slice_from s (m + slen sep)) sep
  end.

(** [Split(s, sep)] is [genSplit(s, sep, 0, -1)]. *)
Definition Split (s sep : string) : list string :=
  if slen sep =? 0 then explode s
  else
    let n := Count s sep + 1 in
    let n := if n >? slen s + 1 then slen s + 1 else n in
    genSplit_loop (Z.to_nat (n - 1)) s sep.

(** [Join(elems, sep)]. *)
Fixpoint Join (elems : list string) (sep : string) : string :=
  match elems with
  | [] => ""
  | [a] => a
  | a :: rest => a ++ sep ++ Join rest sep
  end.

End strings.

(** ** The global-ID codec *)

Record globalID : Type := { nodeType : string; id : string }.

Definition toGlobalID (nodeType id : string) : string :=
  strings.Join [nodeType; id] ":".

Definition toGlobalIDs (nodeType : string) (ids : list string) : list string :=
  fold_left (fun globalIDs id => (globalIDs ++ [strings.Join [nodeType; id] ":"])%list)
            ids [].

(** [fromGlobalID] returns a pointer to a fresh struct, never nil: the
    struct stands for it. *)
Definition fromGlobalID (gID : string) : outcome globalID :=
  let idSplit := strings.Split gID ":" in
  if len idSplit =? 2 then
    a <- index idSplit 0 ;;
    b <- index idSplit 1 ;;
    Return {| nodeType := a; id := b |}
  else
    a <- index idSplit 0 ;;
    Return {| id := a; nodeType := "" |}.

(** ** Optional predicates *)

Section Predicates.

(** [sql.Selector] belongs to the query builder; a predicate is a function
    on a pointer to a selector: it updates the selector it is given. *)
Variable Selector : Type.

Definition Predicate : Type := Selector -> Selector.

(** The function with the empty body: the selector is left as it is. *)
Definition NoOpSelector : Predicate := fun s => s.

(** The builder [fn] is any Go function: it can read and change the state
    [W] of the program around it, and it can panic. *)
Variables T W : Type.

Definition builder : Type := T -> W -> outcome (Predicate * W).

Definition optionalPredicate (value : option T) (fn : builder)
  : W -> outcome (Predicate * W) :=
  fun w =>
    match value with
    | None => Return (NoOpSelector, w)
    | Some v => fn v w
    end.

End Predicates.

Arguments NoOpSelector {Selector}.
Arguments optionalPredicate {Selector T W} value fn.

(** ** The chunker *)

(** The body of [for i := 0; i < chunksNum; i++]: [todo] is the number of
    turns left, [chunksNum - i]. *)
Fixpoint chunk_loop {T} (todo : nat) (collection : list T) (size i : Z)
  (result : list (list T)) : outcome (list (list T)) :=
  match todo with
  | O => Return result
  | S todo' =>
      let last := GoInt.mul (GoInt.add i 1) size in
      let last := if last >? len collection then len collection else last in
      c <- slice collection (GoInt.mul i size) last ;;
      chunk_loop todo' collection size (GoInt.add i 1) (result ++ [c])%list
  end.

Definition chunk {T} (collection : list T) (size : Z) : outcome (list (list T)) :=
  if size <=? 0 then Panics "Second parameter must be greater than 0"
  else
    let chunksNum := GoInt.div (len collection) size in
    let chunksNum :=
      if negb (GoInt.rem (len collection) size =? 0) then GoInt.add chunksNum 1
      else chunksNum in
    chunk_loop (Z.to_nat chunksNum) collection size 0 [].

(** ** Bytes and fixed-width words *)

Definition Z_of_byte (b : byte) : Z := Z.of_N (Byte.to_N b).

(** The conversion [uint8(z)]: the low eight bits. *)
Definition byte_of_Z (z : Z) : byte :=
  match Byte.of_N (Z.to_N (z mod 256)) with
  | Some b => b
  | None => x00
  end.

Definition u32 (z : Z) : Z := z mod 2 ^ 32.
Definition u64 (z : Z) : Z := z mod 2 ^ 64.

(** [binary.BigEndian.PutUint32] and [PutUint64]. *)
Definition put_be32 (w : Z) : list byte :=
  [byte_of_Z (Z.shiftr w 24); byte_of_Z (Z.shiftr w 16);
   byte_of_Z (Z.shiftr w 8); byte_of_Z w].

Definition put_be64 (w : Z) : list byte :=
  (put_be32 (Z.shiftr w 32) ++ put_be32 w)%list.

(** ** Interface [hash.Hash] *)

Module hash.

Class Hash (D : Type) : Type :=
  { Reset : D -> D
  ; Write : D -> list byte -> D
  ; Sum : D -> list byte -> outcome (list byte) }.

End hash.

(** ** Package [crypto/sha256] *)

Module sha256.

Definition chunk : Z := 64.

Definition words : Type := (Z * Z * Z * Z * Z * Z * Z * Z)%type.

Definition init : words :=
  (0x6a09e667, 0xbb67ae85, 0x3c6ef372, 0xa54ff53a,
   0x510e527f, 0x9b05688c, 0x1f83d9ab, 0x5be0cd19).

(** The table [_K] holds the first 32 bits of the fractional parts of the
    cube roots of the first 64 primes (FIPS 180-4, 4.2.2); it is computed
    here once and for all from that definition. *)
Definition is_prime (n : nat) : bool :=
  forallb (fun d => negb (Nat.eqb (Nat.modulo n d) 0)) (seq 2 (n - 2)).

Definition primes : list Z := map Z.of_nat (filter is_prime (seq 2 310)).

(** The integer cube root, one bit at a time from bit [bits - 1] down. *)
Fixpoint cube_root (bits : nat) (n r : Z) : Z :=
  match bits with
  | O => r
  | S bits' =>
      let r' := r + 2 ^ Z.of_nat bits' in
      if r' * r' * r' <=? n then cube_root bits' n r' else cube_root bits' n r
  end.

Definition _K : list Z :=
  Eval vm_compute in map (fun p => u32 (cube_root 35 (p * 2 ^ 96) 0)) primes.

(** [bits.RotateLeft32(x, -k)] on a 32-bit word. *)
Definition rotr (x k : Z) : Z :=
  u32 (Z.lor (Z.shiftr x k) (Z.shiftl x (32 - k))).

(** The sixteen big-endian words of a block. *)
Fixpoint be_words (p : list byte) : list Z :=
  match p with
  | b0 :: b1 :: b2 :: b3 :: p' =>
      Z.lor (Z.lor (Z.lor (Z.shiftl (Z_of_byte b0) 24) (Z.shiftl (Z_of_byte b1) 16))
                   (Z.shiftl (Z_of_byte b2) 8)) (Z_of_byte b3)
      :: be_words p'
  | _ => []
  end.

(** [for i := 16; i < 64; i++]: the next word of the message schedule is
    put behind the [i = length w] words computed so far. *)
Fixpoint extend (todo : nat) (w : list Z) : list Z :=
  match todo with
  | O => w
  | S todo' =>
      let i := List.length w in
      let v1 := nth (i - 2) w 0 in
      let t1 := Z.lxor (Z.lxor (rotr v1 17) (rotr v1 19)) (Z.shiftr v1 10) in
      let v2 := nth (i - 15) w 0 in
      let t2 := Z.lxor (Z.lxor (rotr v2 7) (rotr v2 18)) (Z.shiftr v2 3) in
      extend todo' (w ++ [u32 (t1 + nth (i - 7) w 0 + t2 + nth (i - 16) w 0)])%list
  end.

(** One turn of [for i := 0; i < 64; i++] with [_K[i]] and [w[i]]. *)
Definition round (s : words) (kw : Z * Z) : words :=
  let '(a, b, c, d, e, f, g, h) := s in
  let '(k, wi) := kw in
  let t1 := u32 (h + Z.lxor (Z.lxor (rotr e 6) (rotr e 11)) (rotr e 25)
                 + Z.lxor (Z.land e f) (Z.land (u32 (Z.lnot e)) g) + k + wi) in
  let t2 := u32 (Z.lxor (Z.lxor (rotr a 2) (rotr a 13)) (rotr a 22)
                 + Z.lxor (Z.lxor (Z.land a b) (Z.land a c)) (Z.land b c)) in
  (u32 (t1 + t2), a, b, c, u32 (d + t1), e, f, g).

(** [blockGeneric] on one block of 64 bytes. *)
Definition block (hs : words) (p : list byte) : words :=
  let w := extend 48 (be_words p) in
  let '(h0, h1, h2, h3, h4, h5, h6, h7) := hs in
  let '(a, b, c, d, e, f, g, h) := fold_left round (combine _K w) hs in
  (u32 (h0 + a), u32 (h1 + b), u32 (h2 + c), u32 (h3 + d),
   u32 (h4 + e), u32 (h5 + f), u32 (h6 + g), u32 (h7 + h)).

(** The struct [digest]: [x] holds the [nx] buffered bytes [x[:nx]]. *)
Record digest : Type := { h : words; x : list byte; len : Z }.

Definition New : digest := {| h := init; x := []; len := 0 |}.

Definition Reset (d : digest) : digest := New.

(** [Write] buffers the bytes and compresses every full block; one byte at
    a time here, which leaves the same digest as Go's copy by blocks. *)
Definition write_byte (d : digest) (b : byte) : digest :=
  let x' := (x d ++ [b])%list in
  if Z.of_nat (List.length x') =? chunk
  then {| h := block (h d) x'; x := []; len := u64 (len d + 1) |}
  else {| h := h d; x := x'; len := u64 (len d + 1) |}.

Definition Write (d : digest) (p : list byte) : digest :=
  fold_left write_byte p d.

(** [checkSum]: the padding [tmp[:t+8]] is [0x80], zeros up to 56 bytes
    modulo 64, and the length in bits; then the eight words, big-endian. *)
Definition checkSum (d : digest) : outcome (list byte) :=
  let n := len d in
  let t := if n mod 64 <? 56 then 56 - n mod 64 else 64 + 56 - n mod 64 in
  let n := u64 (Z.shiftl n 3) in
  let padlen := (x80 :: repeat x00 (Z.to_nat t - 1) ++ put_be64 n)%list in
  let d := Write d padlen in
  if negb (Z.of_nat (List.length (x d)) =? 0) then Panics "d.nx != 0"
  else
    let '(h0, h1, h2, h3, h4, h5, h6, h7) := h d in
    Return (put_be32 h0 ++ put_be32 h1 ++ put_be32 h2 ++ put_be32 h3 ++
            put_be32 h4 ++ put_be32 h5 ++ put_be32 h6 ++ put_be32 h7)%list.

(** [Sum] works on a copy of the digest and appends the checksum to [b]. *)
Definition Sum (d : digest) (b : list byte) : outcome (list byte) :=
  hash <- checkSum d ;;
  Return (b ++ hash)%list.

#[global] Instance digest_Hash : hash.Hash digest :=
  {| hash.Reset := Reset; hash.Write := Write; hash.Sum := Sum |}.

End sha256.

(** ** Package [github.com/google/uuid] *)

Module uuid.

(** A [UUID] is an array of 16 bytes. *)
Definition UUID : Type := list byte.

(** [6ba7b810-9dad-11d1-80b4-00c04fd430c8] *)
Definition NameSpaceDNS : UUID :=
  [x6b; xa7; xb8; x10; x9d; xad; x11; xd1; x80; xb4; x00; xc0; x4f; xd4; x30; xc8].

(** [var uuid UUID; copy(uuid[:], s)]: the first 16 bytes of [s] over a zero
    array. *)
Definition copy_into_zero (s : list byte) : UUID :=
  firstn 16 (s ++ repeat x00 16).

(** [u[i] = b] for [i] within the array. *)
Fixpoint set (u : UUID) (i : nat) (b : byte) : UUID :=
  match u, i with
  | [], _ => []
  | _ :: u', O => b :: u'
  | c :: u', S i' => c :: set u' i' b
  end.

Definition get (u : UUID) (i : nat) : Z := Z_of_byte (nth i u x00).

Definition NewHash {D} `{hash.Hash D} (h : D) (space : UUID) (data : list byte)
  (version : Z) : outcome UUID :=
  let h := hash.Reset h in
  let h := hash.Write h space in
  let h := hash.Write h data in
  s <- hash.Sum h [] ;;
  let uuid := copy_into_zero s in
  let uuid :=
    set uuid 6 (byte_of_Z (Z.lor (Z.land (get uuid 6) 0x0f)
                                 (Z.shiftl (Z.land version 0xf) 4))) in
  let uuid := set uuid 8 (byte_of_Z (Z.lor (Z.land (get uuid 8) 0x3f) 0x80)) in
  Return uuid.

End uuid.

(** ** The content-addressed ID generator *)

Definition generateUUIDKey (data : list byte) : outcome uuid.UUID :=
  uuid.NewHash sha256.New uuid.NameSpaceDNS data 5.

(** ** Package [model]: the nodes *)

(** Modelled from the spec: the struct declarations of package [model]
    ([pkg/assembler/graphql/model]) are not part of the sources at hand.
    Each struct keeps the fields helpers.go reads: the identifier and, for
    the nested variants, the slice of children, held by value. *)

Module PackageVersion.
Record t : Type := { ID : string }.
End PackageVersion.

Module PackageName.
Record t : Type := { ID : string; Versions : list PackageVersion.t }.
End PackageName.

Module PackageNamespace.
Record t : Type := { ID : string; Names : list PackageName.t }.
End PackageNamespace.

Module Package.
Record t : Type := { ID : string; Namespaces : list PackageNamespace.t }.
End Package.

Module SourceName.
Record t : Type := { ID : string }.
End SourceName.

Module SourceNamespace.
Record t : Type := { ID : string; Names : list SourceName.t }.
End SourceNamespace.

Module Source.
Record t : Type := { ID : string; Namespaces : list SourceNamespace.t }.
End Source.

Module VulnerabilityID.
Record t : Type := { ID : string }.
End VulnerabilityID.

Module Vulnerability.
Record t : Type := { ID : string; VulnerabilityIDs : list VulnerabilityID.t }.
End Vulnerability.

(** Every other variant: a struct with a direct identifier. *)
Module Flat.
Record t : Type := { ID : string }.
End Flat.

(** A pointer is [None] when nil. *)
Definition ptr (A : Type) : Type := option A.

Definition is_nil {A} (p : ptr A) : bool :=
  match p with
  | Some _ => false
  | None => true
  end.

(** Reading a field through a pointer. *)
Definition deref {A} (p : ptr A) : outcome A :=
  match p with
  | Some a => Return a
  | None => Panics "invalid memory address or nil pointer dereference"
  end.

(** A value of interface [model.Node]: the nil interface, a pointer of one
    of the types the type switch of [getIDfromNode] names, or a value of any
    other type, of which [repr] is the [%v] rendering. *)
Inductive Node : Type :=
| nil_Node
| of_Package (v : ptr Package.t)
| of_Artifact (v : ptr Flat.t)
| of_Builder (v : ptr Flat.t)
| of_Source (v : ptr Source.t)
| of_Vulnerability (v : ptr Vulnerability.t)
| of_License (v : ptr Flat.t)
| of_CertifyBad (v : ptr Flat.t)
| of_CertifyGood (v : ptr Flat.t)
| of_CertifyLegal (v : ptr Flat.t)
| of_CertifyScorecard (v : ptr Flat.t)
| of_CertifyVEXStatement (v : ptr Flat.t)
| of_CertifyVuln (v : ptr Flat.t)
| of_HashEqual (v : ptr Flat.t)
| of_HasMetadata (v : ptr Flat.t)
| of_HasSbom (v : ptr Flat.t)
| of_HasSlsa (v : ptr Flat.t)
| of_HasSourceAt (v : ptr Flat.t)
| of_IsDependency (v : ptr Flat.t)
| of_IsOccurrence (v : ptr Flat.t)
| of_PkgEqual (v : ptr Flat.t)
| of_PointOfContact (v : ptr Flat.t)
| of_VulnEqual (v : ptr Flat.t)
| of_VulnerabilityMetadata (v : ptr Flat.t)
| of_other_type (repr : string).

(** [%v] of the value the [default] case binds. *)
Definition render (node : Node) : string :=
  match node with
  | of_other_type repr => repr
  | _ => "<nil>"
  end.

(** An [error] is nil or carries its message. *)
Definition error : Type := option string.

(** ** The node ID resolver *)

(** [a && b]: [b] is evaluated only when [a] is true. *)
Definition and_then (a b : outcome bool) : outcome bool :=
  x <- a ;; if x then b else Return false.

Infix "&&&" := and_then (at level 40, left associativity).

(** [v.ID, nil] for a variant with a direct identifier. *)
Definition flat_ID (v : ptr Flat.t) : outcome (string * error) :=
  p <- deref v ;; Return (Flat.ID p, None).

Definition Package_Namespaces0 (v : ptr Package.t) : outcome PackageNamespace.t :=
  p <- deref v ;; index (Package.Namespaces p) 0.

Definition Package_Names0 (v : ptr Package.t) : outcome PackageName.t :=
  ns <- Package_Namespaces0 v ;; index (PackageNamespace.Names ns) 0.

Definition Package_Versions0 (v : ptr Package.t) : outcome PackageVersion.t :=
  n <- Package_Names0 v ;; index (PackageName.Versions n) 0.

Definition Source_Namespaces0 (v : ptr Source.t) : outcome SourceNamespace.t :=
  p <- deref v ;; index (Source.Namespaces p) 0.

Definition Source_Names0 (v : ptr Source.t) : outcome SourceName.t :=
  ns <- Source_Namespaces0 v ;; index (SourceNamespace.Names ns) 0.

Definition getIDfromNode (node : Node) : outcome (string * error) :=
  match node with
  | of_Package v =>
      let has_namespace :=
        Return (negb (is_nil v))
        &&& (p <- deref v ;; Return (len (Package.Namespaces p) >? 0)) in
      let has_name :=
        has_namespace
        &&& (ns <- Package_Namespaces0 v ;;
             Return (len (PackageNamespace.Names ns) >? 0)) in
      let has_version :=
        has_name
        &&& (n <- Package_Names0 v ;;
             Return (len (PackageName.Versions n) >? 0)) in
      c <- has_version ;;
      if c then x <- Package_Versions0 v ;; Return (PackageVersion.ID x, None)
      else
        c <- has_name ;;
        if c then x <- Package_Names0 v ;; Return (PackageName.ID x, None)
        else
          c <- has_namespace ;;
          if c then x <- Package_Namespaces0 v ;; Return (PackageNamespace.ID x, None)
          else p <- deref v ;; Return (Package.ID p, None)
  | of_Artifact v => flat_ID v
  | of_Builder v => flat_ID v
  | of_Source v =>
      let has_namespace :=
        Return (negb (is_nil v))
        &&& (p <- deref v ;; Return (len (Source.Namespaces p) >? 0)) in
      let has_name :=
        has_namespace
        &&& (ns <- Source_Namespaces0 v ;;
             Return (len (SourceNamespace.Names ns) >? 0)) in
      c <- has_name ;;
      if c then x <- Source_Names0 v ;; Return (SourceName.ID x, None)
      else
        c <- has_namespace ;;
        if c then x <- Source_Namespaces0 v ;; Return (SourceNamespace.ID x, None)
        else p <- deref v ;; Return (Source.ID p, None)
  | of_Vulnerability v =>
      c <- (p <- deref v ;; Return (len (Vulnerability.VulnerabilityIDs p) >? 0)) ;;
      if c then
        p <- deref v ;;
        x <- index (Vulnerability.VulnerabilityIDs p) 0 ;;
        Return (VulnerabilityID.ID x, None)
      else p <- deref v ;; Return (Vulnerability.ID p, None)
  | of_License v => flat_ID v
  | of_CertifyBad v => flat_ID v
  | of_CertifyGood v => flat_ID v
  | of_CertifyLegal v => flat_ID v
  | of_CertifyScorecard v => flat_ID v
  | of_CertifyVEXStatement v => flat_ID v
  | of_CertifyVuln v => flat_ID v
  | of_HashEqual v => flat_ID v
  | of_HasMetadata v => flat_ID v
  | of_HasSbom v => flat_ID v
  | of_HasSlsa v => flat_ID v
  | of_HasSourceAt v => flat_ID v
  | of_IsDependency v => flat_ID v
  | of_IsOccurrence v => flat_ID v
  | of_PkgEqual v => flat_ID v
  | of_PointOfContact v => flat_ID v
  | of_VulnEqual v => flat_ID v
  | of_VulnerabilityMetadata v => flat_ID v
  | _ => Return ("", Some ("unknown type: " ++ render node))
  end.

(** ** The remaining helpers *)

Section Filters.

(** [sql.FieldEQ(name, value)] belongs to the query builder: the predicate
    that asks for the field to be equal to the value. *)
Variable Selector : Type.
Variable FieldEQ : string -> string -> Predicate Selector.

Definition IDEQ (id' : string) : outcome (Predicate Selector) :=
  filterGlobalID <- fromGlobalID id' ;;
  Return (FieldEQ "id" (id filterGlobalID)).

End Filters.

Arguments IDEQ {Selector} FieldEQ id'.

Definition ptrWithDefault {T} (value : ptr T) (defaultValue : T) : T :=
  match value with
  | None => defaultValue
  | Some v => v
  end.

(** A pointer [&slice[i]] is the place [i] of the array behind the slice;
    reading and writing through it reach the element of the slice. *)
Definition place : Type := nat.

Definition addr_of {T} (slice : list T) (i : Z) : outcome (ptr place) :=
  if (0 <=? i) && (i <? len slice) then Return (Some (Z.to_nat i))
  else Panics "index out of range".


(** [s[i] = v] on a slice. *)
Definition assign {T} (s : list T) (i : Z) (v : T) : outcome (list T) :=
  if (0 <=? i) && (i <? len s) then
    Return (firstn (Z.to_nat i) s ++ v :: skipn (S (Z.to_nat i)) s)%list
  else Panics "index out of range".

(** The body of [for i := range slice]: [todo] turns are left. *)
Fixpoint toPtrSlice_loop {T} (todo : nat) (slice : list T) (i : Z)
  (ptrs : list (ptr place)) : outcome (list (ptr place)) :=
  match todo with
  | O => Return ptrs
  | S todo' =>
      a <- addr_of slice i ;;
      ptrs <- assign ptrs i a ;;
      toPtrSlice_loop todo' slice (i + 1) ptrs
  end.

Definition toPtrSlice {T} (slice : list T) : outcome (list (ptr place)) :=
  let ptrs := repeat None (List.length slice) in
  toPtrSlice_loop (List.length slice) slice 0 ptrs.

Section Lower.

(** [strings.Map(unicode.ToLower, s)], the path of [strings.ToLower] for a
    string with a byte outside ASCII: it needs the Unicode tables and is
    left to the library. *)
Variable Map_unicode_ToLower : string -> string.

(** The first loop of [ToLower]: is the string ASCII, and has it an upper
    case letter before the first byte outside ASCII. *)
Fixpoint scan (s : string) (hasUpper : bool) : bool * bool :=
  match s with
  | EmptyString => (true, hasUpper)
  | String c s' =>
      if (128 <=? nat_of_ascii c)%nat then (false, hasUpper)
      else
        scan s' (hasUpper
                 || ((nat_of_ascii "A" <=? nat_of_ascii c)%nat
                     && (nat_of_ascii c <=? nat_of_ascii "Z")%nat))
  end.

(** [c += 'a' - 'A'] on the upper case letters. *)
Definition lower_byte (c : ascii) : ascii :=
  if ((nat_of_ascii "A" <=? nat_of_ascii c)%nat
      && (nat_of_ascii c <=? nat_of_ascii "Z")%nat)
  then ascii_of_nat (nat_of_ascii c + (nat_of_ascii "a" - nat_of_ascii "A"))
  else c.

(** The second loop copies the string with its upper case letters
    lowered. *)
Fixpoint lower_bytes (s : string) : string :=
  match s with
  | EmptyString => EmptyString
  | String c s' => String (lower_byte c) (lower_bytes s')
  end.

Definition ToLower (s : string) : string :=
  let '(isASCII, hasUpper) := scan s false in
  if isASCII then
    if negb hasUpper then s else lower_bytes s
  else Map_unicode_ToLower s.

Definition toLowerPtr (s : ptr string) : ptr string :=
  match s with
  | None => None
  | Some v => let lower := ToLower v in Some lower
  end.

End Lower.

(** * Definitions of the statements *)

(** The decoding the specification describes: cut at the first separator. *)
Definition cutAtFirst (gID : string) : globalID :=
  let i := strings.Index gID ":" in
  {| nodeType := strings.slice_to gID i; id := strings.slice_from gID (i + 1) |}.

(** A nil pointer of one of the types of the switch. *)
Definition typed_nil (node : Node) : bool :=
  match node with
  | nil_Node | of_other_type _ => false
  | of_Package v => is_nil v
  | of_Source v => is_nil v
  | of_Vulnerability v => is_nil v
  | of_Artifact v | of_Builder v | of_License v | of_CertifyBad v
  | of_CertifyGood v | of_CertifyLegal v | of_CertifyScorecard v
  | of_CertifyVEXStatement v | of_CertifyVuln v | of_HashEqual v
  | of_HasMetadata v | of_HasSbom v | of_HasSlsa v | of_HasSourceAt v
  | of_IsDependency v | of_IsOccurrence v | of_PkgEqual v
  | of_PointOfContact v | of_VulnEqual v | of_VulnerabilityMetadata v => is_nil v
  end.

(** The identifier of a package along its first entries. *)
Definition Package_first_ID (p : Package.t) : string :=
  match Package.Namespaces p with
  | [] => Package.ID p
  | ns :: _ =>
      match PackageNamespace.Names ns with
      | [] => PackageNamespace.ID ns
      | n :: _ =>
          match PackageName.Versions n with
          | [] => PackageName.ID n
          | ver :: _ => PackageVersion.ID ver
          end
      end
  end.

Definition Source_first_ID (p : Source.t) : string :=
  match Source.Namespaces p with
  | [] => Source.ID p
  | ns :: _ =>
      match SourceNamespace.Names ns with
      | [] => SourceNamespace.ID ns
      | n :: _ => SourceName.ID n
      end
  end.

(** "A Version entity is present beneath a Name beneath a Namespace", on
    the slices of the model. *)
Definition version_present (p : Package.t) (ver : PackageVersion.t) : Prop :=
  exists ns n,
    In ns (Package.Namespaces p) /\ In n (PackageNamespace.Names ns) /\
    In ver (PackageName.Versions n).

(** A package whose first namespace is empty and whose second one holds a
    name with a version. *)
Definition two_namespaces : Package.t :=
  {| Package.ID := "P1";
     Package.Namespaces :=
       [ {| PackageNamespace.ID := "NS1"; PackageNamespace.Names := [] |};
         {| PackageNamespace.ID := "NS2";
            PackageNamespace.Names :=
              [ {| PackageName.ID := "N2";
                   PackageName.Versions := [ {| PackageVersion.ID := "V2" |} ] |} ] |} ] |}.

(** The [k]-th group of [sz] elements of [c]. *)
Definition group_at {T} (c : list T) (sz k : nat) : list T :=
  firstn sz (skipn (k * sz) c).

(** A slice of [math.MaxInt64] values of the empty struct. *)
Definition huge_slice : list unit := repeat tt (Z.to_nat GoInt.MaxInt).

(** The number of separators of a string, and the fields between them. *)
Fixpoint separators (s : string) : Z :=
  match s with
  | EmptyString => 0
  | String c s' => if Ascii.eqb c ":" then separators s' + 1 else separators s'
  end.

Fixpoint fields (s : string) : list string :=
  match s with
  | EmptyString => [""]
  | String c s' =>
      if Ascii.eqb c ":" then "" :: fields s'
      else match fields s' with
           | a :: rest => String c a :: rest
           | [] => [String c ""]
           end
  end.

(** The pointer held by a node of a variant with a direct identifier. *)
Definition flat_pointer (node : Node) : option (ptr Flat.t) :=
  match node with
  | of_Artifact v | of_Builder v | of_License v | of_CertifyBad v
  | of_CertifyGood v | of_CertifyLegal v | of_CertifyScorecard v
  | of_CertifyVEXStatement v | of_CertifyVuln v | of_HashEqual v
  | of_HasMetadata v | of_HasSbom v | of_HasSlsa v | of_HasSourceAt v
  | of_IsDependency v | of_IsOccurrence v | of_PkgEqual v
  | of_PointOfContact v | of_VulnEqual v | of_VulnerabilityMetadata v => Some v
  | _ => None
  end.

(** A string of ASCII bytes. *)
Definition is_ascii (s : string) : Prop :=
  forall c, In c (list_ascii_of_string s) -> (nat_of_ascii c < 128)%nat.

(** No upper case ASCII letter. *)
Definition no_upper (s : string) : Prop :=
  forall c, In c (list_ascii_of_string s) ->
            ~ (nat_of_ascii "A" <= nat_of_ascii c <= nat_of_ascii "Z")%nat.

(** The number of groups of the chunker. *)
Definition groups_count (n size : Z) : Z := (n + size - 1) / size.

(** * Properties *)

(** ** Slices *)

Lemma len_nonneg {T} (s : list T) : 0 <= len s.
Proof. unfold len. lia. Qed.

Lemma len_cons {T} (a : T) (s : list T) : len (a :: s) = len s + 1.
Proof. unfold len. cbn [List.length]. lia. Qed.

Lemma index_0_cons {T} (a : T) (s : list T) : index (a :: s) 0 = Return a.
Proof.
  unfold index. rewrite len_cons.
  pose proof (len_nonneg s) as Hs.
  replace (0 <? len s + 1) with true by (symmetry; apply Z.ltb_lt; lia).
  reflexivity.
Qed.

(** ** The separator in a string *)

Module colon.

Import strings.

Lemma slen_nonneg s : 0 <= slen s.
Proof. unfold slen. lia. Qed.

Lemma slen_String c s : slen (String c s) = slen s + 1.
Proof. unfold slen. cbn [String.length]. lia. Qed.

Lemma slen_app a b : slen (a ++ b) = slen a + slen b.
Proof.
  induction a as [|c a IH]; cbn [append].
  - unfold slen at 2. cbn. lia.
  - rewrite !slen_String, IH. lia.
Qed.

Lemma Index_cons c s :
  Index (String c s) ":" =
    if Ascii.eqb c ":" then 0
    else if Index s ":" <? 0 then -1 else Index s ":" + 1.
Proof.
  cbn [Index HasPrefix].
  replace (HasPrefix s "") with true by (destruct s; reflexivity).
  rewrite andb_true_r. reflexivity.
Qed.

Lemma Index_range s : Index s ":" = -1 \/ 0 <= Index s ":" < slen s.
Proof.
  induction s as [|c s IH].
  - left. reflexivity.
  - rewrite Index_cons, slen_String. pose proof (slen_nonneg s).
    destruct (Ascii.eqb c ":"); [right; lia|].
    destruct (Z.ltb_spec (Index s ":") 0); [left; reflexivity | right; lia].
Qed.

Lemma Contains_false s : Contains s ":" = false <-> Index s ":" = -1.
Proof.
  unfold Contains. rewrite Z.leb_gt.
  destruct (Index_range s); lia.
Qed.

Lemma Contains_true s : Contains s ":" = true <-> 0 <= Index s ":".
Proof. unfold Contains. apply Z.leb_le. Qed.

Lemma Contains_cons_false c s :
  Contains (String c s) ":" = false ->
  Ascii.eqb c ":" = false /\ Contains s ":" = false.
Proof.
  rewrite !Contains_false, Index_cons.
  destruct (Ascii.eqb c ":"); [discriminate|].
  destruct (Z.ltb_spec (Index s ":") 0) as [Hlt|Hge]; intros H.
  - split; [reflexivity|]. destruct (Index_range s); lia.
  - lia.
Qed.

(** The first separator of [a ++ ":" ++ b] is behind [a] when [a] has none. *)
Lemma Index_app a b :
  Contains a ":" = false -> Index (a ++ String ":" b) ":" = slen a.
Proof.
  induction a as [|c a IH]; intros Ha.
  - cbn [append]. rewrite Index_cons. reflexivity.
  - apply Contains_cons_false in Ha as [Hc Ha].
    cbn [append]. rewrite Index_cons, Hc, (IH Ha), slen_String.
    pose proof (slen_nonneg a).
    destruct (Z.ltb_spec (slen a) 0); lia.
Qed.

(** A string with a separator is cut by the first one. *)
Lemma Index_cut s :
  0 <= Index s ":" ->
  exists a b, s = a ++ String ":" b /\ Contains a ":" = false.
Proof.
  induction s as [|c s IH].
  - cbn. lia.
  - rewrite Index_cons. destruct (Ascii.eqb_spec c ":") as [->|Hc]; intros H.
    + exists "", s. split; reflexivity.
    + destruct (Z.ltb_spec (Index s ":") 0) as [Hlt|Hge]; [lia|].
      destruct (IH Hge) as (a & b & -> & Ha).
      exists (String c a), b. split; [reflexivity|].
      apply Contains_false. rewrite Index_cons.
      apply Ascii.eqb_neq in Hc. rewrite Hc.
      apply Contains_false in Ha. rewrite Ha. reflexivity.
Qed.

Lemma substring_all s : substring 0 (String.length s) s = s.
Proof. induction s as [|c s IH]; cbn; [|rewrite IH]; reflexivity. Qed.

Lemma substring_head a b : substring 0 (String.length a) (a ++ b) = a.
Proof.
  induction a as [|c a IH]; cbn.
  - destruct b; reflexivity.
  - rewrite IH. reflexivity.
Qed.

Lemma slice_to_app a b : slice_to (a ++ String ":" b) (slen a) = a.
Proof.
  unfold slice_to, sub, slen.
  replace (Z.to_nat (Z.of_nat (String.length a) - 0)) with (String.length a) by lia.
  apply substring_head.
Qed.

Lemma substring_behind a c b n :
  substring (S (String.length a)) n (a ++ String c b) = substring 0 n b.
Proof. induction a as [|d a IH]; cbn; [reflexivity | apply IH]. Qed.

Lemma slice_from_app a b : slice_from (a ++ String ":" b) (slen a + 1) = b.
Proof.
  unfold slice_from, sub. rewrite slen_app, slen_String. unfold slen.
  replace (Z.to_nat (Z.of_nat (String.length a) + 1)) with (S (String.length a)) by lia.
  replace (Z.to_nat _) with (String.length b) by lia.
  rewrite substring_behind. apply substring_all.
Qed.

(** [Count]: the turns of the loop. *)

Lemma Count_loop_none turns s n :
  Contains s ":" = false -> Count_loop turns s ":" n = n.
Proof.
  intros Hs. apply Contains_false in Hs.
  destruct turns; cbn [Count_loop]; [reflexivity|].
  rewrite Hs. reflexivity.
Qed.

Lemma Count_loop_step turns a b n :
  Contains a ":" = false ->
  Count_loop (S turns) (a ++ String ":" b) ":" n = Count_loop turns b ":" (n + 1).
Proof.
  intros Ha. cbn [Count_loop]. rewrite (Index_app a b Ha).
  pose proof (slen_nonneg a).
  destruct (Z.eqb_spec (slen a) (-1)); [lia|].
  change (slen ":") with 1. rewrite slice_from_app. reflexivity.
Qed.

Lemma Count_loop_ge turns : forall s n, n <= Count_loop turns s ":" n.
Proof.
  induction turns as [|turns IH]; intros s n; cbn [Count_loop]; [lia|].
  destruct (Index s ":" =? -1); [lia|].
  specialize (IH (slice_from s (Index s ":" + slen ":")) (n + 1)). lia.
Qed.

Lemma Count_loop_some turns s n :
  Contains s ":" = true -> n + 1 <= Count_loop (S turns) s ":" n.
Proof.
  intros Hs. apply Contains_true in Hs. cbn [Count_loop].
  destruct (Z.eqb_spec (Index s ":") (-1)); [lia|].
  apply Count_loop_ge.
Qed.

Lemma Count_colon s : Count s ":" = Count_loop (String.length s) s ":" 0.
Proof. reflexivity. Qed.

Lemma Count_none s : Contains s ":" = false -> Count s ":" = 0.
Proof. intros Hs. rewrite Count_colon. apply Count_loop_none, Hs. Qed.

Lemma length_app_colon a b :
  String.length (a ++ String ":" b) = S (String.length a + String.length b).
Proof. induction a as [|c a IH]; cbn; [|rewrite IH]; reflexivity. Qed.

Lemma Count_one a b :
  Contains a ":" = false -> Contains b ":" = false ->
  Count (a ++ String ":" b) ":" = 1.
Proof.
  intros Ha Hb.
  rewrite Count_colon, length_app_colon, (Count_loop_step _ a b 0 Ha).
  apply Count_loop_none, Hb.
Qed.

(** Exactly one separator: the string is [a ++ ":" ++ b], none in [a] or [b]. *)
Lemma Count_one_cut s :
  Count s ":" = 1 ->
  exists a b, s = a ++ String ":" b /\
              Contains a ":" = false /\ Contains b ":" = false.
Proof.
  intros H1.
  destruct (Contains s ":") eqn:Hs.
  - apply Contains_true in Hs.
    destruct (Index_cut s Hs) as (a & b & -> & Ha).
    exists a, b. split; [reflexivity|]. split; [exact Ha|].
    rewrite Count_colon, length_app_colon, (Count_loop_step _ a b 0 Ha) in H1.
    destruct (Contains b ":") eqn:Hb; [|reflexivity].
    destruct b as [|c b]; [discriminate Hb|].
    replace (String.length a + String.length (String c b))%nat
      with (S (String.length a + String.length b)) in H1 by (cbn; lia).
    pose proof (Count_loop_some (String.length a + String.length b)
                  (String c b) (0 + 1) Hb).
    lia.
  - rewrite (Count_none s Hs) in H1. discriminate.
Qed.

(** [Split] at the separator. *)

Lemma Split_none s : Contains s ":" = false -> Split s ":" = [s].
Proof.
  intros Hs. unfold Split. change (slen ":" =? 0) with false. cbv iota.
  rewrite (Count_none s Hs). pose proof (slen_nonneg s).
  replace (0 + 1 >? slen s + 1) with false by (symmetry; rewrite Z.gtb_ltb; apply Z.ltb_ge; lia).
  reflexivity.
Qed.

Lemma Split_one a b :
  Contains a ":" = false -> Contains b ":" = false ->
  Split (a ++ String ":" b) ":" = [a; b].
Proof.
  intros Ha Hb. unfold Split. change (slen ":" =? 0) with false. cbv iota.
  rewrite (Count_one a b Ha Hb), slen_app, slen_String.
  pose proof (slen_nonneg a). pose proof (slen_nonneg b).
  replace (1 + 1 >? slen a + (slen b + 1) + 1) with false
    by (symmetry; rewrite Z.gtb_ltb; apply Z.ltb_ge; lia).
  change (Z.to_nat (1 + 1 - 1)) with 1%nat. cbn [genSplit_loop].
  rewrite (Index_app a b Ha).
  replace (slen a <? 0) with false by (symmetry; apply Z.ltb_ge; lia).
  change (slen ":") with 1. rewrite slice_to_app, slice_from_app. reflexivity.
Qed.

Lemma genSplit_loop_cons cuts s sep :
  exists a rest, genSplit_loop cuts s sep = a :: rest.
Proof.
  destruct cuts; cbn [genSplit_loop]; [eauto|].
  destruct (Index s sep <? 0); eauto.
Qed.

Lemma Split_cons s : exists a rest, Split s ":" = a :: rest.
Proof. unfold Split. change (slen ":" =? 0) with false. apply genSplit_loop_cons. Qed.

End colon.

(** ** The global-ID codec *)

Lemma toGlobalID_eq nodeType id :
  toGlobalID nodeType id = nodeType ++ String ":" id.
Proof. reflexivity. Qed.

Lemma fromGlobalID_returns gID : returns (fromGlobalID gID).
Proof.
  unfold fromGlobalID, returns.
  destruct (colon.Split_cons gID) as (a & rest & ->).
  destruct (len (a :: rest) =? 2) eqn:E.
  - destruct rest as [|b rest]; [discriminate E|].
    destruct rest as [|c rest].
    + eexists. reflexivity.
    + exfalso. apply Z.eqb_eq in E. rewrite !len_cons in E.
      pose proof (len_nonneg rest). lia.
  - rewrite index_0_cons. eexists. reflexivity.
Qed.

Lemma fromGlobalID_untagged gID :
  strings.Contains gID ":" = false ->
  fromGlobalID gID = Return {| nodeType := ""; id := gID |}.
Proof.
  intros H. unfold fromGlobalID. rewrite (colon.Split_none gID H). reflexivity.
Qed.

Lemma fromGlobalID_one a b :
  strings.Contains a ":" = false -> strings.Contains b ":" = false ->
  fromGlobalID (a ++ String ":" b) = Return {| nodeType := a; id := b |}.
Proof.
  intros Ha Hb. unfold fromGlobalID. rewrite (colon.Split_one a b Ha Hb). reflexivity.
Qed.

Example fromGlobalID_tagged :
  fromGlobalID "Package:42" = Return {| nodeType := "Package"; id := "42" |}.
Proof. reflexivity. Qed.

Example fromGlobalID_empty :
  fromGlobalID "" = Return {| nodeType := ""; id := "" |}.
Proof. reflexivity. Qed.

Example toGlobalIDs_order :
  toGlobalIDs "Artifact" ["7"; "3"; "7"] = ["Artifact:7"; "Artifact:3"; "Artifact:7"].
Proof. reflexivity. Qed.

(** C1. Round trip of the codec: when neither the node type nor the local
    identifier contains the separator, decoding the encoded pair gives the
    pair back. *)
Theorem fromGlobalID_toGlobalID (nodeType id : string) :
  strings.Contains nodeType ":" = false ->
  strings.Contains id ":" = false ->
  fromGlobalID (toGlobalID nodeType id) =
    Return {| nodeType := nodeType; id := id |}.
Proof.
  intros Ht Hi. rewrite toGlobalID_eq. apply fromGlobalID_one; assumption.
Qed.

Lemma fromGlobalID_toGlobalID_witness :
  strings.Contains "Package" ":" = false /\
  strings.Contains "42" ":" = false /\
  fromGlobalID (toGlobalID "Package" "42") =
    Return {| nodeType := "Package"; id := "42" |}.
Proof.
  split; [reflexivity|]. split; [reflexivity|].
  apply (fromGlobalID_toGlobalID "Package" "42"); reflexivity.
Defined.

(** C3 as the specification words it: every identifier with a separator is
    cut at the first one.  It fails on an identifier with two separators:
    [Split] gives three parts, and the decoder falls back to the first part
    with an empty node type. *)
Lemma fromGlobalID_first_separator_counterexample :
  strings.Contains "a:b:c" ":" = true /\
  cutAtFirst "a:b:c" = {| nodeType := "a"; id := "b:c" |} /\
  fromGlobalID "a:b:c" = Return {| nodeType := ""; id := "a" |} /\
  fromGlobalID "a:b:c" <> Return (cutAtFirst "a:b:c").
Proof.
  split; [reflexivity|]. split; [reflexivity|]. split; [reflexivity|].
  discriminate.
Qed.

(** C3, amended. For every identifier with exactly one occurrence of the
    separator, decoding returns the text before the separator as node type
    and the text behind it as local identifier. *)
Theorem fromGlobalID_single_separator (gID : string) :
  strings.Count gID ":" = 1 ->
  fromGlobalID gID = Return (cutAtFirst gID).
Proof.
  intros H1.
  destruct (colon.Count_one_cut gID H1) as (a & b & -> & Ha & Hb).
  rewrite (fromGlobalID_one a b Ha Hb). unfold cutAtFirst.
  rewrite (colon.Index_app a b Ha), colon.slice_to_app, colon.slice_from_app.
  reflexivity.
Qed.

Lemma fromGlobalID_single_separator_witness :
  strings.Count "Package:42" ":" = 1 /\
  fromGlobalID "Package:42" = Return {| nodeType := "Package"; id := "42" |}.
Proof.
  split; [reflexivity|].
  apply (fromGlobalID_single_separator "Package:42"). reflexivity.
Defined.

(** C4. Decoding is total, and an identifier without the separator decodes
    to the empty node type and the whole identifier as local identifier. *)
Theorem fromGlobalID_total (gID : string) :
  returns (fromGlobalID gID) /\
  (strings.Contains gID ":" = false ->
   fromGlobalID gID = Return {| nodeType := ""; id := gID |}).
Proof.
  split; [apply fromGlobalID_returns | apply fromGlobalID_untagged].
Qed.

Lemma fromGlobalID_total_witness :
  strings.Contains "plainID" ":" = false /\
  fromGlobalID "plainID" = Return {| nodeType := ""; id := "plainID" |}.
Proof.
  split; [reflexivity|].
  apply (proj2 (fromGlobalID_total "plainID")). reflexivity.
Defined.

(** ** Optional predicates *)

(** C10. On an absent value the result is the no-op predicate, whatever the
    builder is: the builder is not run, so the state around the call is
    left as it was, and no panic of the builder is seen.  The no-op
    predicate leaves every selector as it is.  On a present value the call
    is the builder's call on that value. *)
Theorem optionalPredicate_absent_present {Selector T W : Type}
  (fn : builder Selector T W) (w : W) :
  optionalPredicate None fn w = Return (NoOpSelector, w) /\
  (forall s : Selector, NoOpSelector s = s) /\
  (forall v : T, optionalPredicate (Some v) fn w = fn v w).
Proof. repeat split. Qed.

(** A builder that counts its calls, or one that panics, is not seen on an
    absent value. *)
Example optionalPredicate_counting :
  optionalPredicate (Selector := list string) None
    (fun (v : string) (calls : nat) =>
       Return ((fun s => (v :: s)%list), S calls)) 0%nat
  = Return (NoOpSelector, 0%nat).
Proof. reflexivity. Qed.

Example optionalPredicate_panicking :
  optionalPredicate (Selector := list string) (T := string) (W := unit) None
    (fun _ _ => Panics "builder called") tt
  = Return (NoOpSelector, tt).
Proof. reflexivity. Qed.

(** ** The node ID resolver *)

Ltac first_entry :=
  repeat match goal with
    | |- context [index (?a :: ?s) 0] => rewrite (index_0_cons a s)
    | |- context [len (?a :: ?s) >? 0] =>
        replace (len (a :: s) >? 0) with true
          by (symmetry; rewrite Z.gtb_ltb; apply Z.ltb_lt;
              rewrite len_cons; pose proof (len_nonneg s); lia)
    | _ => progress cbn [bind and_then deref is_nil negb]
    end.

Lemma getIDfromNode_Package (p : Package.t) :
  getIDfromNode (of_Package (Some p)) = Return (Package_first_ID p, None).
Proof.
  unfold getIDfromNode, Package_first_ID, Package_Versions0, Package_Names0,
    Package_Namespaces0.
  destruct p as [pid nss]. cbn [Package.Namespaces Package.ID].
  destruct nss as [|[nsid ns] nss]; [reflexivity|].
  cbn [PackageNamespace.Names PackageNamespace.ID]. first_entry.
  cbn [PackageNamespace.Names PackageNamespace.ID].
  destruct ns as [|[nid vs] ns]; [reflexivity|].
  first_entry. cbn [PackageName.Versions PackageName.ID].
  destruct vs as [|ver vs]; [reflexivity|].
  first_entry. reflexivity.
Qed.

Lemma getIDfromNode_Source (p : Source.t) :
  getIDfromNode (of_Source (Some p)) = Return (Source_first_ID p, None).
Proof.
  unfold getIDfromNode, Source_first_ID, Source_Names0, Source_Namespaces0.
  destruct p as [pid nss]. cbn [Source.Namespaces Source.ID].
  destruct nss as [|[nsid ns] nss]; [reflexivity|].
  cbn [SourceNamespace.Names SourceNamespace.ID]. first_entry.
  cbn [SourceNamespace.Names SourceNamespace.ID].
  destruct ns as [|n ns]; [reflexivity|].
  first_entry. reflexivity.
Qed.

(** C5 as the specification words it: whenever some Version is present
    beneath a Name beneath a Namespace, a Version's identifier is returned.
    It fails on a package whose first namespace is empty while a later one
    is populated: the resolver reads the first entry of each slice only. *)
Lemma getIDfromNode_Package_counterexample :
  version_present two_namespaces {| PackageVersion.ID := "V2" |} /\
  getIDfromNode (of_Package (Some two_namespaces)) = Return ("NS1", None) /\
  (forall ver, version_present two_namespaces ver ->
     getIDfromNode (of_Package (Some two_namespaces))
       <> Return (PackageVersion.ID ver, None)).
Proof.
  split; [|split].
  - eexists _, _. cbn. split; [right; left; reflexivity|].
    cbn. split; [left; reflexivity|]. cbn. left. reflexivity.
  - reflexivity.
  - intros ver (ns & n & Hns & Hn & Hver).
    cbn in Hns. destruct Hns as [<-|[<-|[]]]; cbn in Hn; [destruct Hn|].
    destruct Hn as [<-|[]]. cbn in Hver. destruct Hver as [<-|[]].
    cbn. discriminate.
Qed.

(** C5, amended. For every Package node, the resolver follows the first
    entry of each level: the first Version of the first Name of the first
    Namespace when there is one; otherwise the first Name of the first
    Namespace when there is one; otherwise the first Namespace when there
    is one; otherwise the Package itself. *)
Theorem getIDfromNode_Package_precedence (p : Package.t) :
  getIDfromNode (of_Package (Some p)) =
    Return
      (match Package.Namespaces p with
       | [] => Package.ID p
       | ns :: _ =>
           match PackageNamespace.Names ns with
           | [] => PackageNamespace.ID ns
           | n :: _ =>
               match PackageName.Versions n with
               | [] => PackageName.ID n
               | ver :: _ => PackageVersion.ID ver
               end
           end
       end, None).
Proof. apply getIDfromNode_Package. Qed.

Lemma getIDfromNode_Vulnerability_first (v : Vulnerability.t) :
  getIDfromNode (of_Vulnerability (Some v)) =
    Return
      (match Vulnerability.VulnerabilityIDs v with
       | x :: _ => VulnerabilityID.ID x
       | [] => Vulnerability.ID v
       end, None).
Proof.
  unfold getIDfromNode. destruct v as [vid ids].
  cbn [Vulnerability.VulnerabilityIDs Vulnerability.ID].
  destruct ids as [|x ids]; [reflexivity|].
  first_entry. reflexivity.
Qed.

(** C6. For every Vulnerability node, the identifier of the first
    VulnerabilityID record when the list is not empty, the identifier of
    the Vulnerability itself when it is. *)
Theorem getIDfromNode_Vulnerability (v : Vulnerability.t) :
  (forall x rest, Vulnerability.VulnerabilityIDs v = x :: rest ->
     getIDfromNode (of_Vulnerability (Some v)) = Return (VulnerabilityID.ID x, None)) /\
  (Vulnerability.VulnerabilityIDs v = [] ->
     getIDfromNode (of_Vulnerability (Some v)) = Return (Vulnerability.ID v, None)).
Proof.
  split; [intros x rest H | intros H];
    rewrite getIDfromNode_Vulnerability_first, H; reflexivity.
Qed.

Lemma getIDfromNode_Vulnerability_witness :
  getIDfromNode
    (of_Vulnerability
       (Some {| Vulnerability.ID := "VU1";
                Vulnerability.VulnerabilityIDs :=
                  [ {| VulnerabilityID.ID := "VID1" |};
                    {| VulnerabilityID.ID := "VID2" |} ] |}))
  = Return ("VID1", None) /\
  getIDfromNode
    (of_Vulnerability
       (Some {| Vulnerability.ID := "VU1"; Vulnerability.VulnerabilityIDs := [] |}))
  = Return ("VU1", None).
Proof.
  split.
  - apply (proj1 (getIDfromNode_Vulnerability
                    {| Vulnerability.ID := "VU1";
                       Vulnerability.VulnerabilityIDs :=
                         [ {| VulnerabilityID.ID := "VID1" |};
                           {| VulnerabilityID.ID := "VID2" |} ] |})
                 {| VulnerabilityID.ID := "VID1" |}
                 [ {| VulnerabilityID.ID := "VID2" |} ]).
    reflexivity.
  - apply (proj2 (getIDfromNode_Vulnerability
                    {| Vulnerability.ID := "VU1";
                       Vulnerability.VulnerabilityIDs := [] |})).
    reflexivity.
Defined.

Example resolve_two_VulnerabilityIDs :
  getIDfromNode
    (of_Vulnerability
       (Some {| Vulnerability.ID := "VU1";
                Vulnerability.VulnerabilityIDs :=
                  [ {| VulnerabilityID.ID := "VID1" |};
                    {| VulnerabilityID.ID := "VID2" |} ] |}))
  = Return ("VID1", None).
Proof. reflexivity. Qed.

Example resolve_Package_chain :
  getIDfromNode
    (of_Package
       (Some {| Package.ID := "P1";
                Package.Namespaces :=
                  [ {| PackageNamespace.ID := "NS1";
                       PackageNamespace.Names :=
                         [ {| PackageName.ID := "N1";
                              PackageName.Versions :=
                                [ {| PackageVersion.ID := "V1" |} ] |} ] |} ] |}))
  = Return ("V1", None).
Proof. reflexivity. Qed.

(** A node of a type outside the switch, and the nil interface: an error
    that carries the value. *)
Lemma getIDfromNode_other_type (repr : string) :
  getIDfromNode (of_other_type repr) = Return ("", Some ("unknown type: " ++ repr)).
Proof. reflexivity. Qed.

Lemma getIDfromNode_nil_Node :
  getIDfromNode nil_Node = Return ("", Some "unknown type: <nil>").
Proof. reflexivity. Qed.


(** A nil pointer of any type of the switch: the resolver reads [v.ID]
    (or [v.VulnerabilityIDs]) through it. *)
Lemma getIDfromNode_typed_nil (node : Node) :
  typed_nil node = true ->
  getIDfromNode node = Panics "invalid memory address or nil pointer dereference".
Proof.
  destruct node as [ |v|v|v|v|v|v|v|v|v|v|v|v|v|v|v|v|v|v|v|v|v|v|v|repr];
    cbn [typed_nil]; intros Hv; try discriminate Hv;
    (destruct v as [p|]; [discriminate Hv | reflexivity]).
Qed.

(** C7 on the code: for a nil pointer of type Package the guards [v != nil]
    send the switch to its last branch, which reads [v.ID]. *)
Theorem getIDfromNode_nil_Package :
  getIDfromNode (of_Package None)
  = Panics "invalid memory address or nil pointer dereference".
Proof. reflexivity. Qed.

(** ** The chunker *)

Section Chunker.

Context {T : Type}.

Lemma wrap_int_id z :
  GoInt.MinInt <= z <= GoInt.MaxInt -> GoInt.wrap_int z = z.
Proof.
  unfold GoInt.MinInt, GoInt.MaxInt, GoInt.wrap_int. intros Hz.
  rewrite Z.mod_small; lia.
Qed.

Lemma slice_ok (s : list T) lo hi :
  0 <= lo <= hi -> hi <= len s ->
  slice s lo hi = Return (firstn (Z.to_nat (hi - lo)) (skipn (Z.to_nat lo) s)).
Proof.
  intros [Hlo Hhi] Hlen. unfold slice.
  rewrite (proj2 (Z.leb_le 0 lo) Hlo), (proj2 (Z.leb_le lo hi) Hhi),
    (proj2 (Z.leb_le hi (len s)) Hlen).
  reflexivity.
Qed.

Lemma slice_inverted (s : list T) lo hi :
  hi < lo -> slice s lo hi = Panics "slice bounds out of range".
Proof.
  intros H. unfold slice. rewrite (proj2 (Z.leb_gt lo hi) H), andb_false_r.
  reflexivity.
Qed.





(** The number of groups: the length divided by the size, rounded up. *)
Lemma chunksNum_ceil n size :
  0 <= n -> 0 < size ->
  (if negb (Z.rem n size =? 0) then Z.quot n size + 1 else Z.quot n size)
  = (n + size - 1) / size.
Proof.
  intros Hn Hsize.
  rewrite Z.rem_mod_nonneg, Z.quot_div_nonneg by lia.
  pose proof (Z.div_mod n size ltac:(lia)) as Hdm.
  pose proof (Z.mod_pos_bound n size Hsize) as Hr.
  destruct (Z.eqb_spec (n mod size) 0) as [H0|H0]; cbn [negb].
  - apply Z.div_unique with (r := size - 1); lia.
  - apply Z.div_unique with (r := n mod size - 1); lia.
Qed.


End Chunker.




Example chunk_five_by_two :
  chunk [1; 2; 3; 4; 5] 2 = Return [[1; 2]; [3; 4]; [5]].
Proof. reflexivity. Qed.

Example chunk_empty : chunk (@nil Z) 5 = Return [].
Proof. reflexivity. Qed.

Example chunk_exact : chunk [1; 2; 3; 4] 2 = Return [[1; 2]; [3; 4]].
Proof. reflexivity. Qed.

(** The loop ends with the groups or with the panic of a slice expression. *)
Lemma chunk_loop_panic {T} (c : list T) size todo :
  forall i result msg,
    chunk_loop todo c size i result = Panics msg ->
    msg = "slice bounds out of range".
Proof.
  induction todo as [|todo IH]; intros i result msg; cbn [chunk_loop].
  - discriminate.
  - unfold slice at 1.
    destruct (_ && _ && _); cbn [bind].
    + apply IH.
    + intros [= <-]. reflexivity.
Qed.

(** C9. With a size that is not positive the chunker panics at once, with
    its own message, whatever the slice is; with a positive size that
    panic is not reached. *)
Theorem chunk_size_check {T} (c : list T) (size : Z) :
  (size <= 0 -> chunk c size = Panics "Second parameter must be greater than 0") /\
  (0 < size -> chunk c size <> Panics "Second parameter must be greater than 0").
Proof.
  split; intros Hsize; unfold chunk.
  - rewrite (proj2 (Z.leb_le size 0) Hsize). reflexivity.
  - rewrite (proj2 (Z.leb_gt size 0) Hsize). intros Hp.
    apply chunk_loop_panic in Hp. discriminate Hp.
Qed.

Lemma chunk_size_check_witness :
  (0 <= 0 /\ chunk (@nil Z) 0 = Panics "Second parameter must be greater than 0") /\
  (-3 <= 0 /\ chunk [1; 2] (-3) = Panics "Second parameter must be greater than 0") /\
  (0 < 2 /\ chunk [1; 2; 3] 2 <> Panics "Second parameter must be greater than 0").
Proof.
  split; [|split]; (split; [lia|]).
  - apply (proj1 (chunk_size_check (@nil Z) 0)). lia.
  - apply (proj1 (chunk_size_check [1; 2] (-3))). lia.
  - apply (proj2 (chunk_size_check [1; 2; 3] 2)). lia.
Defined.

(** Two groups whose second upper bound leaves the range of [int]: the
    product wraps to a negative number and the slice expression panics. *)
Lemma chunk_overflow {T} (c : list T) (size : Z) :
  size < len c -> len c < 2 * size -> len c <= GoInt.MaxInt ->
  GoInt.MaxInt < 2 * size ->
  chunk c size = Panics "slice bounds out of range".
Proof.
  unfold GoInt.MaxInt. intros Hlo Hhi Hmax Hover.
  unfold chunk. rewrite (proj2 (Z.leb_gt size 0)) by lia.
  unfold GoInt.div, GoInt.rem.
  rewrite Z.rem_mod_nonneg, Z.quot_div_nonneg by lia.
  assert (Hq : len c / size = 1) by (symmetry; apply Z.div_unique with (r := len c - size); lia).
  assert (Hr : len c mod size = len c - size)
    by (symmetry; apply Z.mod_unique with (q := 1); lia).
  rewrite Hq, Hr.
  replace (len c - size =? 0) with false by (symmetry; apply Z.eqb_neq; lia).
  cbn [negb].
  change (Z.to_nat (GoInt.add (GoInt.wrap_int 1) 1)) with 2%nat.
  cbn [chunk_loop].
  change (GoInt.add 0 1) with 1. change (GoInt.add 1 1) with 2.
  unfold GoInt.mul.
  replace (0 * size) with 0 by lia. replace (1 * size) with size by lia.
  change (GoInt.wrap_int 0) with 0.
  rewrite (wrap_int_id size) by (unfold GoInt.MinInt, GoInt.MaxInt; lia).
  replace (size >? len c) with false by (symmetry; rewrite Z.gtb_ltb; apply Z.ltb_ge; lia).
  rewrite slice_ok by lia. cbn [bind].
  assert (Hwrap : GoInt.wrap_int (2 * size) = 2 * size - 2 ^ 64).
  { unfold GoInt.wrap_int.
    assert (E : (2 * size + 2 ^ 63) mod 2 ^ 64 = 2 * size + 2 ^ 63 - 2 ^ 64)
      by (symmetry; apply Z.mod_unique with (q := 1); lia).
    rewrite E. lia. }
  rewrite Hwrap.
  replace (2 * size - 2 ^ 64 >? len c) with false
    by (symmetry; rewrite Z.gtb_ltb; apply Z.ltb_ge; unfold len; lia).
  rewrite slice_inverted by lia. reflexivity.
Qed.

(** C8 on the code: a slice of [math.MaxInt64] empty structs cut with size
    [1<<62 + 1] has two groups; the upper bound [2 * size] of the second
    one wraps, and the chunker panics where the specification promises the
    groups. *)
Theorem chunk_huge_slice :
  0 < 4611686018427387905 /\
  chunk huge_slice 4611686018427387905 = Panics "slice bounds out of range".
Proof.
  split; [lia|].
  assert (Hlen : len huge_slice = GoInt.MaxInt).
  { unfold len, huge_slice. rewrite repeat_length. apply Z2Nat.id.
    unfold GoInt.MaxInt. lia. }
  apply chunk_overflow; rewrite ?Hlen; unfold GoInt.MaxInt; lia.
Qed.

(** ** The content-addressed ID generator *)

Module digest.

Import sha256.

(** The buffer holds the bytes written since the last full block. *)
Lemma write_byte_len d b : len (write_byte d b) mod 64 = (len d + 1) mod 64.
Proof.
  unfold write_byte.
  destruct (_ =? chunk); cbn [len]; unfold u64;
    apply Z.mod_mod_divide; exists (2 ^ 58); reflexivity.
Qed.

Lemma write_byte_buffer d b :
  Z.of_nat (List.length (x d)) = len d mod 64 ->
  Z.of_nat (List.length (x (write_byte d b))) = len (write_byte d b) mod 64.
Proof.
  intros Hd. rewrite write_byte_len. unfold write_byte, chunk.
  rewrite length_app. cbn [List.length].
  pose proof (Z.mod_pos_bound (len d) 64 ltac:(lia)) as Hm.
  pose proof (Z.div_mod (len d) 64 ltac:(lia)) as Hdm.
  destruct (Z.eqb_spec (Z.of_nat (List.length (x d) + 1)) 64) as [E|E]; cbn [x].
  - cbn [List.length].
    apply Z.mod_unique with (q := len d / 64 + 1); lia.
  - rewrite length_app. cbn [List.length].
    apply Z.mod_unique with (q := len d / 64); lia.
Qed.

Lemma Write_len p : forall d,
  len (Write d p) mod 64 = (len d + Z.of_nat (List.length p)) mod 64.
Proof.
  unfold Write. induction p as [|b p IH]; intros d; cbn [fold_left List.length].
  - f_equal. lia.
  - rewrite IH.
    rewrite <- Z.add_mod_idemp_l, write_byte_len, Z.add_mod_idemp_l by lia.
    f_equal. lia.
Qed.

Lemma Write_buffer p : forall d,
  Z.of_nat (List.length (x d)) = len d mod 64 ->
  Z.of_nat (List.length (x (Write d p))) = len (Write d p) mod 64.
Proof.
  unfold Write. induction p as [|b p IH]; intros d Hd; cbn [fold_left].
  - exact Hd.
  - apply IH, write_byte_buffer, Hd.
Qed.

Lemma length_put_be32 w : List.length (put_be32 w) = 4%nat.
Proof. reflexivity. Qed.

Lemma length_put_be64 w : List.length (put_be64 w) = 8%nat.
Proof. reflexivity. Qed.

(** The padding fills the last block: [checkSum] does not reach its panic,
    and the checksum has 32 bytes. *)
Lemma checkSum_returns d :
  Z.of_nat (List.length (x d)) = len d mod 64 ->
  exists s, checkSum d = Return s /\ List.length s = 32%nat.
Proof.
  intros Hd. unfold checkSum.
  set (t := if len d mod 64 <? 56 then 56 - len d mod 64
            else 64 + 56 - len d mod 64).
  set (padlen := (x80 :: repeat x00 (Z.to_nat t - 1)
                      ++ put_be64 (u64 (Z.shiftl (len d) 3)))%list).
  pose proof (Z.mod_pos_bound (len d) 64 ltac:(lia)) as Hm.
  pose proof (Z.div_mod (len d) 64 ltac:(lia)) as Hdm.
  assert (Ht : 1 <= t <= 64 /\ (len d + t + 8) mod 64 = 0).
  { subst t. destruct (Z.ltb_spec (len d mod 64) 56); (split; [lia|]); symmetry.
    - apply Z.mod_unique with (q := len d / 64 + 1); lia.
    - apply Z.mod_unique with (q := len d / 64 + 2); lia. }
  destruct Ht as [Ht Hfull].
  assert (Hpad : Z.of_nat (List.length padlen) = t + 8).
  { subst padlen. cbn [List.length].
    rewrite length_app, repeat_length, length_put_be64. lia. }
  pose proof (Write_buffer padlen d Hd) as Hbuf.
  rewrite (Write_len padlen d), Hpad, Z.add_assoc, Hfull in Hbuf.
  rewrite Hbuf. cbn [Z.eqb negb].
  destruct (h (Write d padlen)) as [[[[[[[h0 h1] h2] h3] h4] h5] h6] h7].
  eexists. split; [reflexivity|]. reflexivity.
Qed.

Lemma New_buffer : Z.of_nat (List.length (x New)) = len New mod 64.
Proof. reflexivity. Qed.

End digest.

Lemma length_set u i b : List.length (uuid.set u i b) = List.length u.
Proof.
  revert i. induction u as [|c u IH]; intros i; [reflexivity|].
  destruct i; cbn [uuid.set List.length]; [|rewrite IH]; reflexivity.
Qed.

Lemma length_copy_into_zero s : List.length (uuid.copy_into_zero s) = 16%nat.
Proof.
  unfold uuid.copy_into_zero.
  rewrite length_firstn, length_app, repeat_length. lia.
Qed.

Lemma generateUUIDKey_returns data :
  exists u, generateUUIDKey data = Return u /\ List.length u = 16%nat.
Proof.
  unfold generateUUIDKey, uuid.NewHash.
  unfold hash.Sum, hash.Write, hash.Reset, sha256.digest_Hash, sha256.Sum.
  destruct (digest.checkSum_returns
              (sha256.Write (sha256.Write (sha256.Reset sha256.New) uuid.NameSpaceDNS) data))
    as (s & Hs & _).
  { apply digest.Write_buffer, digest.Write_buffer, digest.New_buffer. }
  rewrite Hs. cbn [bind app].
  eexists. split; [reflexivity|].
  rewrite !length_set. apply length_copy_into_zero.
Qed.

(** C2. The generator is a total function of the bytes: for every byte
    sequence, the empty one too, it returns an identifier of 16 bytes, and
    every evaluation on the same bytes returns that identifier. *)
Theorem generateUUIDKey_total_deterministic (data : list byte) :
  exists u : uuid.UUID,
    generateUUIDKey data = Return u /\
    List.length u = 16%nat /\
    (forall data', data' = data -> generateUUIDKey data' = Return u).
Proof.
  destruct (generateUUIDKey_returns data) as (u & Hu & Hlen).
  exists u. split; [exact Hu|]. split; [exact Hlen|].
  intros data' ->. exact Hu.
Qed.

Lemma generateUUIDKey_total_deterministic_witness :
  exists u : uuid.UUID,
    generateUUIDKey [] = Return u /\ List.length u = 16%nat /\
    generateUUIDKey (@nil byte ++ []) = Return u.
Proof.
  destruct (generateUUIDKey_total_deterministic []) as (u & Hu & Hlen & Hsame).
  exists u. split; [exact Hu|]. split; [exact Hlen|].
  apply Hsame. reflexivity.
Defined.

(** Golden values, as computed by [crypto/sha256] and [uuid.NewHash]. *)
Example generateUUIDKey_empty :
  generateUUIDKey [] =
    Return [x4e; xbc; x3b; xf9; x44; x58; x5d; x83;
            xba; xae; xf9; xd9; xdc; x2a; xd9; x79].
Proof. vm_compute. reflexivity. Qed.

Example generateUUIDKey_abc :
  generateUUIDKey [x61; x62; x63] =
    Return [x97; x08; x5b; x50; x86; xf0; x52; x11;
            xa7; xa5; x23; xa1; x93; xa0; x09; x8a].
Proof. vm_compute. reflexivity. Qed.

(** More than one block: 16 bytes of name space and 200 bytes of data. *)
Example generateUUIDKey_long :
  generateUUIDKey (repeat x61 200) =
    Return [xeb; xf9; xf6; xf1; x51; x6e; x5e; x15;
            x8f; xb4; x21; xf0; xab; x3e; xd9; x58].
Proof. vm_compute. reflexivity. Qed.

Example sha256_empty :
  sha256.Sum sha256.New [] =
    Return [xe3; xb0; xc4; x42; x98; xfc; x1c; x14; x9a; xfb; xf4; xc8;
            x99; x6f; xb9; x24; x27; xae; x41; xe4; x64; x9b; x93; x4c;
            xa4; x95; x99; x1b; x78; x52; xb8; x55].
Proof. vm_compute. reflexivity. Qed.

(** The identifier carries version 5 in the high half of byte 6 and the
    RFC 4122 variant in the two high bits of byte 8. *)
Lemma generateUUIDKey_version_variant data :
  exists u, generateUUIDKey data = Return u /\
            uuid.get u 6 / 16 = 5 /\ uuid.get u 8 / 64 = 2.
Proof.
  unfold generateUUIDKey, uuid.NewHash.
  unfold hash.Sum, hash.Write, hash.Reset, sha256.digest_Hash, sha256.Sum.
  destruct (digest.checkSum_returns
              (sha256.Write (sha256.Write (sha256.Reset sha256.New) uuid.NameSpaceDNS) data))
    as (s & Hs & _).
  { apply digest.Write_buffer, digest.Write_buffer, digest.New_buffer. }
  rewrite Hs. cbn [bind app].
  eexists. split; [reflexivity|].
  pose proof (length_copy_into_zero s) as H16.
  generalize dependent (uuid.copy_into_zero s). intros u H16.
  do 16 (destruct u as [|? u]; [discriminate H16|]).
  destruct u; [|discriminate H16].
  unfold uuid.get. cbn [uuid.set nth].
  split;
    match goal with
    | |- context [Z_of_byte (byte_of_Z (Z.lor (Z.land (Z_of_byte ?b) _) _))] =>
        destruct b; vm_compute; reflexivity
    end.
Qed.

Example sha256_K :
  List.length sha256._K = 64%nat /\
  firstn 4 sha256._K = [0x428a2f98; 0x71374491; 0xb5c0fbcf; 0xe9b5dba5] /\
  nth 63 sha256._K 0 = 0xc67178f2.
Proof. repeat split. Qed.

(** * Further properties *)

(** ** [Split] at the separator, in general *)

Module separator.

Import strings.

Lemma Contains_cons c s :
  Contains (String c s) ":" = false <->
  Ascii.eqb c ":" = false /\ Contains s ":" = false.
Proof.
  split; [apply colon.Contains_cons_false|].
  intros [Hc Hs]. apply colon.Contains_false. rewrite colon.Index_cons, Hc.
  apply colon.Contains_false in Hs. rewrite Hs. reflexivity.
Qed.

Lemma separators_nonneg s : 0 <= separators s.
Proof.
  induction s as [|c s IH]; cbn [separators]; [lia|].
  destruct (Ascii.eqb c ":"); lia.
Qed.

Lemma separators_le_slen s : separators s <= slen s.
Proof.
  induction s as [|c s IH]; cbn [separators].
  - unfold slen. cbn. lia.
  - rewrite colon.slen_String. destruct (Ascii.eqb c ":"); lia.
Qed.

Lemma separators_zero s : separators s = 0 <-> Contains s ":" = false.
Proof.
  induction s as [|c s IH].
  - split; reflexivity.
  - rewrite Contains_cons. cbn [separators].
    pose proof (separators_nonneg s).
    destruct (Ascii.eqb c ":").
    + split; [lia | intros [? _]; discriminate].
    + rewrite IH. tauto.
Qed.

Lemma separators_app a b :
  Contains a ":" = false -> separators (a ++ String ":" b) = separators b + 1.
Proof.
  induction a as [|c a IH]; intros Ha; cbn [append separators].
  - reflexivity.
  - apply Contains_cons in Ha as [Hc Ha]. rewrite Hc. apply IH, Ha.
Qed.

Lemma fields_cons s : exists a rest, fields s = a :: rest.
Proof.
  destruct s as [|c s]; cbn [fields]; [eauto|].
  destruct (Ascii.eqb c ":"); [eauto|].
  destruct (fields s); eauto.
Qed.

Lemma fields_none s : Contains s ":" = false -> fields s = [s].
Proof.
  induction s as [|c s IH]; intros Hs; [reflexivity|].
  apply Contains_cons in Hs as [Hc Hs].
  cbn [fields]. rewrite Hc, (IH Hs). reflexivity.
Qed.

Lemma fields_app a b :
  Contains a ":" = false -> fields (a ++ String ":" b) = a :: fields b.
Proof.
  induction a as [|c a IH]; intros Ha; cbn [append fields].
  - reflexivity.
  - apply Contains_cons in Ha as [Hc Ha]. rewrite Hc, (IH Ha). reflexivity.
Qed.

Lemma length_fields s : len (fields s) = separators s + 1.
Proof.
  induction s as [|c s IH]; cbn [fields separators]; [reflexivity|].
  destruct (Ascii.eqb c ":").
  - rewrite len_cons, IH. reflexivity.
  - destruct (fields_cons s) as (a & rest & E). rewrite E in *.
    rewrite len_cons in *. exact IH.
Qed.

Lemma fields_clean s : Forall (fun f => Contains f ":" = false) (fields s).
Proof.
  induction s as [|c s IH]; cbn [fields].
  - constructor; [reflexivity | constructor].
  - destruct (Ascii.eqb c ":") eqn:Hc.
    + constructor; [reflexivity | exact IH].
    + destruct (fields_cons s) as (a & rest & E). rewrite E in *.
      inversion IH as [|? ? Ha Hrest]; subst.
      constructor; [|exact Hrest].
      apply Contains_cons. split; assumption.
Qed.

Lemma Join_fields s : Join (fields s) ":" = s.
Proof.
  induction s as [|c s IH]; [reflexivity|].
  cbn [fields]. destruct (Ascii.eqb_spec c ":") as [->|Hc].
  - destruct (fields_cons s) as (a & rest & E). rewrite E in *.
    cbn [Join]. cbn [Join] in IH. rewrite IH. reflexivity.
  - destruct (fields_cons s) as (a & rest & E). rewrite E in *.
    destruct rest as [|b rest]; cbn [Join] in *.
    + rewrite IH. reflexivity.
    + rewrite <- IH. reflexivity.
Qed.

(** [Count] counts the separators: the turns given to its loop are enough. *)
Lemma Count_loop_separators turns : forall s n,
  (String.length s <= turns)%nat ->
  Count_loop turns s ":" n = n + separators s.
Proof.
  induction turns as [|turns IH]; intros s n Hlen.
  - destruct s; [cbn; lia | cbn in Hlen; lia].
  - destruct (Contains s ":") eqn:Hs.
    + apply colon.Contains_true in Hs.
      destruct (colon.Index_cut s Hs) as (a & b & -> & Ha).
      rewrite (colon.Count_loop_step _ a b n Ha), (separators_app a b Ha).
      rewrite colon.length_app_colon in Hlen.
      rewrite IH by lia. lia.
    + rewrite (colon.Count_loop_none _ s n Hs).
      apply separators_zero in Hs. lia.
Qed.

Lemma Count_separators s : Count s ":" = separators s.
Proof. rewrite colon.Count_colon, Count_loop_separators; lia. Qed.

Lemma genSplit_loop_fields cuts : forall s,
  separators s <= Z.of_nat cuts -> genSplit_loop cuts s ":" = fields s.
Proof.
  induction cuts as [|cuts IH]; intros s Hs.
  - pose proof (separators_nonneg s).
    assert (H0 : separators s = 0) by lia.
    apply separators_zero in H0. rewrite (fields_none s H0). reflexivity.
  - cbn [genSplit_loop].
    destruct (Z.ltb_spec (Index s ":") 0) as [Hlt|Hge].
    + assert (H0 : Contains s ":" = false)
        by (apply colon.Contains_false; destruct (colon.Index_range s); lia).
      rewrite (fields_none s H0). reflexivity.
    + destruct (colon.Index_cut s Hge) as (a & b & -> & Ha).
      rewrite (colon.Index_app a b Ha). change (slen ":") with 1.
      rewrite colon.slice_to_app, colon.slice_from_app, (fields_app a b Ha).
      rewrite (separators_app a b Ha) in Hs.
      rewrite IH by lia. reflexivity.
Qed.

Lemma Split_fields s : Split s ":" = fields s.
Proof.
  unfold Split. change (slen ":" =? 0) with false. cbv iota.
  rewrite Count_separators.
  pose proof (separators_le_slen s). pose proof (separators_nonneg s).
  replace (separators s + 1 >? slen s + 1) with false
    by (symmetry; rewrite Z.gtb_ltb; apply Z.ltb_ge; lia).
  apply genSplit_loop_fields. lia.
Qed.

End separator.

(** ** The global-ID codec, further *)

(** Splitting at the separator and joining with it gives the string back. *)
Theorem Join_Split (s : string) :
  strings.Join (strings.Split s ":") ":" = s.
Proof. rewrite separator.Split_fields. apply separator.Join_fields. Qed.

Lemma toGlobalIDs_fold nodeType ids : forall globalIDs,
  fold_left
    (fun globalIDs id => (globalIDs ++ [strings.Join [nodeType; id] ":"])%list)
    ids globalIDs
  = (globalIDs ++ map (toGlobalID nodeType) ids)%list.
Proof.
  induction ids as [|id ids IH]; intros globalIDs; cbn [fold_left map].
  - rewrite app_nil_r. reflexivity.
  - rewrite IH, <- app_assoc. reflexivity.
Qed.

(** The batch form encodes each identifier like [toGlobalID], in the order
    of the input and with its duplicates. *)
Theorem toGlobalIDs_each (nodeType : string) (ids : list string) :
  toGlobalIDs nodeType ids = map (toGlobalID nodeType) ids.
Proof. unfold toGlobalIDs. apply toGlobalIDs_fold. Qed.

(** Decoding every identifier of a batch gives the node type and the local
    identifiers back, when none of them contains the separator. *)
Theorem toGlobalIDs_decoded (nodeType : string) (ids : list string) :
  strings.Contains nodeType ":" = false ->
  Forall (fun id => strings.Contains id ":" = false) ids ->
  map fromGlobalID (toGlobalIDs nodeType ids) =
    map (fun id => Return {| nodeType := nodeType; id := id |}) ids.
Proof.
  intros Ht Hids. unfold toGlobalIDs. rewrite toGlobalIDs_fold. cbn [app].
  induction Hids as [|id ids Hid Hids IH]; cbn [map]; [reflexivity|].
  rewrite IH, toGlobalID_eq, (fromGlobalID_one nodeType id Ht Hid). reflexivity.
Qed.

Lemma toGlobalIDs_decoded_witness :
  map fromGlobalID (toGlobalIDs "Artifact" ["7"; "3"; "7"]) =
    [Return {| nodeType := "Artifact"; id := "7" |};
     Return {| nodeType := "Artifact"; id := "3" |};
     Return {| nodeType := "Artifact"; id := "7" |}].
Proof.
  apply (toGlobalIDs_decoded "Artifact" ["7"; "3"; "7"]); [reflexivity|].
  repeat constructor.
Defined.

(** Two pairs with the same encoding are the same pair, as long as the
    node types have no separator (the local identifiers may have some). *)
Theorem toGlobalID_injective (nodeType1 id1 nodeType2 id2 : string) :
  strings.Contains nodeType1 ":" = false ->
  strings.Contains nodeType2 ":" = false ->
  toGlobalID nodeType1 id1 = toGlobalID nodeType2 id2 ->
  nodeType1 = nodeType2 /\ id1 = id2.
Proof.
  intros H1 H2. rewrite !toGlobalID_eq. intros E.
  pose proof (colon.Index_app nodeType1 id1 H1) as I1.
  pose proof (colon.Index_app nodeType2 id2 H2) as I2.
  rewrite E, I2 in I1.
  pose proof (colon.slice_to_app nodeType1 id1) as T1.
  pose proof (colon.slice_from_app nodeType1 id1) as F1.
  rewrite E, <- I1 in T1, F1.
  rewrite colon.slice_to_app in T1. rewrite colon.slice_from_app in F1.
  split; congruence.
Qed.

Lemma toGlobalID_injective_witness :
  "Package" = "Package" /\ "a:b" = "a:b".
Proof.
  apply (toGlobalID_injective "Package" "a:b" "Package" "a:b");
    reflexivity.
Defined.

(** With a separator in the node type the encoding is ambiguous. *)
Example toGlobalID_ambiguous : toGlobalID "a:b" "c" = toGlobalID "a" "b:c".
Proof. reflexivity. Qed.

(** An identifier with two or more separators decodes to the empty node
    type and the text before the first separator: the rest is dropped. *)
Theorem fromGlobalID_many_separators (gID : string) :
  2 <= strings.Count gID ":" ->
  fromGlobalID gID =
    Return {| nodeType := "";
              id := strings.slice_to gID (strings.Index gID ":") |}.
Proof.
  rewrite separator.Count_separators. intros H2.
  destruct (strings.Contains gID ":") eqn:Hc.
  - apply colon.Contains_true in Hc.
    destruct (colon.Index_cut gID Hc) as (a & b & -> & Ha).
    rewrite (separator.separators_app a b Ha) in H2.
    rewrite (colon.Index_app a b Ha), colon.slice_to_app.
    unfold fromGlobalID.
    rewrite separator.Split_fields, (separator.fields_app a b Ha).
    rewrite len_cons, separator.length_fields.
    replace (separators b + 1 + 1 =? 2) with false by (symmetry; apply Z.eqb_neq; lia).
    rewrite index_0_cons. reflexivity.
  - apply separator.separators_zero in Hc. lia.
Qed.

Lemma fromGlobalID_many_separators_witness :
  2 <= strings.Count "a:b:c" ":" /\
  fromGlobalID "a:b:c" = Return {| nodeType := ""; id := "a" |}.
Proof.
  split; [vm_compute; discriminate|].
  apply (fromGlobalID_many_separators "a:b:c"). vm_compute. discriminate.
Defined.

Lemma fromGlobalID_clean gID g :
  fromGlobalID gID = Return g ->
  strings.Contains (nodeType g) ":" = false /\ strings.Contains (id g) ":" = false.
Proof.
  unfold fromGlobalID. rewrite separator.Split_fields.
  pose proof (separator.fields_clean gID) as Hclean.
  destruct (separator.fields_cons gID) as (a & rest & E). rewrite E in *.
  inversion Hclean as [|? ? Ha Hrest]; subst.
  destruct (len (a :: rest) =? 2) eqn:E2.
  - destruct rest as [|b [|c rest]].
    + discriminate E2.
    + inversion Hrest as [|? ? Hb _]; subst.
      cbn. intros [= <-]. split; assumption.
    + exfalso. apply Z.eqb_eq in E2. rewrite !len_cons in E2.
      pose proof (len_nonneg rest). lia.
  - rewrite index_0_cons. cbn [bind]. intros [= <-]. split; [reflexivity | exact Ha].
Qed.

(** Neither part of a decoded identifier contains the separator. *)
Theorem fromGlobalID_parts (gID : string) (g : globalID) :
  fromGlobalID gID = Return g ->
  strings.Contains (nodeType g) ":" = false /\
  strings.Contains (id g) ":" = false.
Proof. apply fromGlobalID_clean. Qed.

Lemma fromGlobalID_parts_witness :
  strings.Contains "" ":" = false /\ strings.Contains "a" ":" = false.
Proof.
  apply (fromGlobalID_parts "a:b:c" {| nodeType := ""; id := "a" |}).
  reflexivity.
Defined.

(** Encoding the parts of a decoded identifier gives the identifier back
    exactly when it has one separator. *)
Theorem toGlobalID_fromGlobalID (gID : string) (g : globalID) :
  fromGlobalID gID = Return g ->
  (toGlobalID (nodeType g) (id g) = gID <-> strings.Count gID ":" = 1).
Proof.
  intros Hg. destruct (fromGlobalID_clean gID g Hg) as [Ht Hi]. split.
  - intros <-. rewrite toGlobalID_eq. apply colon.Count_one; assumption.
  - intros H1. destruct (colon.Count_one_cut gID H1) as (a & b & -> & Ha & Hb).
    rewrite (fromGlobalID_one a b Ha Hb) in Hg. injection Hg as <-.
    reflexivity.
Qed.

Lemma toGlobalID_fromGlobalID_witness :
  (toGlobalID "Package" "42" = "Package:42" <-> strings.Count "Package:42" ":" = 1) /\
  (toGlobalID "" "plainID" = "plainID" <-> strings.Count "plainID" ":" = 1).
Proof.
  split.
  - apply (toGlobalID_fromGlobalID "Package:42" {| nodeType := "Package"; id := "42" |}).
    reflexivity.
  - apply (toGlobalID_fromGlobalID "plainID" {| nodeType := ""; id := "plainID" |}).
    reflexivity.
Defined.

(** ** The identifier filter *)

(** [IDEQ] never panics and compares the field [id] with a text without
    separator: the local part of a tagged identifier, the identifier itself
    when it has no separator. *)
Theorem IDEQ_local {Selector : Type}
  (FieldEQ : string -> string -> Predicate Selector) (gID : string) :
  (exists local, IDEQ FieldEQ gID = Return (FieldEQ "id" local) /\
                 strings.Contains local ":" = false) /\
  (strings.Contains gID ":" = false ->
   IDEQ FieldEQ gID = Return (FieldEQ "id" gID)).
Proof.
  split.
  - destruct (fromGlobalID_returns gID) as (g & Hg).
    exists (id g). unfold IDEQ. rewrite Hg. split; [reflexivity|].
    apply (fromGlobalID_clean gID g Hg).
  - intros Hc. unfold IDEQ. rewrite (fromGlobalID_untagged gID Hc). reflexivity.
Qed.

Lemma IDEQ_local_witness :
  IDEQ (Selector := list (string * string))
       (fun name value s => ((name, value) :: s)%list) "plainID"
  = Return (fun s => (("id", "plainID") :: s)%list).
Proof.
  apply (proj2 (IDEQ_local (Selector := list (string * string))
                  (fun name value s => ((name, value) :: s)%list) "plainID")).
  reflexivity.
Defined.

(** The type tag does not reach the filter: a tagged identifier and its
    local identifier give the same predicate. *)
Theorem IDEQ_toGlobalID {Selector : Type}
  (FieldEQ : string -> string -> Predicate Selector) (nodeType id : string) :
  strings.Contains nodeType ":" = false ->
  strings.Contains id ":" = false ->
  IDEQ FieldEQ (toGlobalID nodeType id) = Return (FieldEQ "id" id) /\
  IDEQ FieldEQ (toGlobalID nodeType id) = IDEQ FieldEQ id.
Proof.
  intros Ht Hi. unfold IDEQ.
  rewrite toGlobalID_eq, (fromGlobalID_one nodeType id Ht Hi),
    (fromGlobalID_untagged id Hi).
  split; reflexivity.
Qed.

Lemma IDEQ_toGlobalID_witness :
  IDEQ (Selector := list (string * string))
       (fun name value s => ((name, value) :: s)%list) (toGlobalID "Package" "42")
  = Return (fun s => (("id", "42") :: s)%list).
Proof.
  apply (proj1 (IDEQ_toGlobalID (Selector := list (string * string))
                  (fun name value s => ((name, value) :: s)%list) "Package" "42"
                  eq_refl eq_refl)).
Defined.

(** ** Pointers to the elements of a slice *)





Example toPtrSlice_empty : toPtrSlice (@nil string) = Return [].
Proof. reflexivity. Qed.

(** ** Lower case *)

Section LowerFacts.

Variable Map_unicode_ToLower : string -> string.

Lemma is_ascii_String c s :
  is_ascii (String c s) <-> (nat_of_ascii c < 128)%nat /\ is_ascii s.
Proof.
  unfold is_ascii. cbn [list_ascii_of_string In]. split.
  - intros H. split; [apply H; left; reflexivity|].
    intros d Hd. apply H. right. exact Hd.
  - intros [Hc Hs] d [<-|Hd]; [exact Hc | apply Hs, Hd].
Qed.

Lemma no_upper_String c s :
  no_upper (String c s) <->
  ~ (nat_of_ascii "A" <= nat_of_ascii c <= nat_of_ascii "Z")%nat /\ no_upper s.
Proof.
  unfold no_upper. cbn [list_ascii_of_string In]. split.
  - intros H. split; [apply H; left; reflexivity|].
    intros d Hd. apply H. right. exact Hd.
  - intros [Hc Hs] d [<-|Hd]; [exact Hc | apply Hs, Hd].
Qed.

Lemma upper_test c :
  ((nat_of_ascii "A" <=? nat_of_ascii c)%nat
   && (nat_of_ascii c <=? nat_of_ascii "Z")%nat) = true
  <-> (nat_of_ascii "A" <= nat_of_ascii c <= nat_of_ascii "Z")%nat.
Proof. rewrite andb_true_iff, !Nat.leb_le. tauto. Qed.

Lemma lower_byte_keeps c :
  ~ (nat_of_ascii "A" <= nat_of_ascii c <= nat_of_ascii "Z")%nat ->
  lower_byte c = c.
Proof.
  intros H. unfold lower_byte.
  destruct (_ && _) eqn:E; [|reflexivity].
  apply upper_test in E. contradiction.
Qed.

Lemma lower_byte_value c :
  (nat_of_ascii "A" <= nat_of_ascii c <= nat_of_ascii "Z")%nat ->
  nat_of_ascii (lower_byte c) = (nat_of_ascii c + 32)%nat.
Proof.
  intros H. unfold lower_byte.
  rewrite (proj2 (upper_test c) H).
  change (nat_of_ascii "A") with 65%nat in *.
  change (nat_of_ascii "Z") with 90%nat in *.
  change (nat_of_ascii "a" - 65)%nat with 32%nat.
  apply nat_ascii_embedding. lia.
Qed.

Lemma lower_byte_not_upper c :
  ~ (nat_of_ascii "A" <= nat_of_ascii (lower_byte c) <= nat_of_ascii "Z")%nat.
Proof.
  destruct (((nat_of_ascii "A" <=? nat_of_ascii c)%nat
             && (nat_of_ascii c <=? nat_of_ascii "Z")%nat)) eqn:E.
  - apply upper_test in E. rewrite (lower_byte_value c E).
    change (nat_of_ascii "A") with 65%nat in *.
    change (nat_of_ascii "Z") with 90%nat in *. lia.
  - assert (H : ~ (nat_of_ascii "A" <= nat_of_ascii c <= nat_of_ascii "Z")%nat)
      by (intros H; apply upper_test in H; congruence).
    rewrite (lower_byte_keeps c H). exact H.
Qed.

Lemma lower_byte_ascii c :
  (nat_of_ascii c < 128)%nat -> (nat_of_ascii (lower_byte c) < 128)%nat.
Proof.
  intros Hc.
  destruct (((nat_of_ascii "A" <=? nat_of_ascii c)%nat
             && (nat_of_ascii c <=? nat_of_ascii "Z")%nat)) eqn:E.
  - apply upper_test in E. rewrite (lower_byte_value c E).
    change (nat_of_ascii "A") with 65%nat in *.
    change (nat_of_ascii "Z") with 90%nat in *. lia.
  - rewrite lower_byte_keeps; [exact Hc|].
    intros H. apply upper_test in H. congruence.
Qed.

Lemma lower_bytes_keeps s : no_upper s -> lower_bytes s = s.
Proof.
  induction s as [|c s IH]; intros H; [reflexivity|].
  apply no_upper_String in H as [Hc Hs].
  cbn [lower_bytes]. rewrite (lower_byte_keeps c Hc), (IH Hs). reflexivity.
Qed.

Lemma lower_bytes_no_upper s : no_upper (lower_bytes s).
Proof.
  induction s as [|c s IH]; cbn [lower_bytes].
  - intros c [].
  - apply no_upper_String. split; [apply lower_byte_not_upper | exact IH].
Qed.

Lemma lower_bytes_ascii s : is_ascii s -> is_ascii (lower_bytes s).
Proof.
  induction s as [|c s IH]; intros H; cbn [lower_bytes].
  - intros c [].
  - apply is_ascii_String in H as [Hc Hs].
    apply is_ascii_String. split; [apply lower_byte_ascii, Hc | apply IH, Hs].
Qed.

Lemma lower_bytes_length s : String.length (lower_bytes s) = String.length s.
Proof. induction s as [|c s IH]; cbn; [|rewrite IH]; reflexivity. Qed.

(** The first loop on an ASCII string: it runs to the end, and it reports
    no upper case letter only when there is none. *)
Lemma scan_ascii s : forall hasUpper,
  is_ascii s ->
  exists u, scan s hasUpper = (true, u) /\
            (u = false -> hasUpper = false /\ no_upper s).
Proof.
  induction s as [|c s IH]; intros hasUpper H.
  - exists hasUpper. split; [reflexivity|].
    intros ->. split; [reflexivity | intros c []].
  - apply is_ascii_String in H as [Hc Hs]. cbn [scan].
    replace (128 <=? nat_of_ascii c)%nat with false
      by (symmetry; apply Nat.leb_gt; exact Hc).
    destruct (IH (hasUpper
                  || ((nat_of_ascii "A" <=? nat_of_ascii c)%nat
                      && (nat_of_ascii c <=? nat_of_ascii "Z")%nat)) Hs)
      as (u & Hu & Hfalse).
    exists u. split; [exact Hu|].
    intros Hu0. destruct (Hfalse Hu0) as [Hor Hno].
    apply orb_false_iff in Hor as [Hh Hc'].
    split; [exact Hh|].
    apply no_upper_String. split; [|exact Hno].
    intros Hup. apply upper_test in Hup. congruence.
Qed.

Lemma ToLower_ascii s :
  is_ascii s -> ToLower Map_unicode_ToLower s = lower_bytes s.
Proof.
  intros H. unfold ToLower.
  destruct (scan_ascii s false H) as (u & -> & Hfalse).
  destruct u; cbn [negb]; [reflexivity|].
  destruct (Hfalse eq_refl) as [_ Hno].
  symmetry. apply lower_bytes_keeps, Hno.
Qed.

(** [toLowerPtr] keeps nil; on an ASCII string it gives a string of the
    same length, still ASCII, without upper case letter, on which a second
    call changes nothing. *)
Theorem toLowerPtr_ascii (s : string) :
  is_ascii s ->
  toLowerPtr Map_unicode_ToLower None = None /\
  exists lower,
    toLowerPtr Map_unicode_ToLower (Some s) = Some lower /\
    String.length lower = String.length s /\
    is_ascii lower /\ no_upper lower /\
    toLowerPtr Map_unicode_ToLower (Some lower) = Some lower.
Proof.
  intros H. split; [reflexivity|].
  exists (lower_bytes s). cbn [toLowerPtr].
  rewrite (ToLower_ascii s H).
  split; [reflexivity|]. split; [apply lower_bytes_length|].
  split; [apply lower_bytes_ascii, H|]. split; [apply lower_bytes_no_upper|].
  rewrite ToLower_ascii by (apply lower_bytes_ascii, H).
  rewrite lower_bytes_keeps by apply lower_bytes_no_upper. reflexivity.
Qed.

End LowerFacts.

Lemma is_ascii_GitHub : is_ascii "GitHub.com/Foo".
Proof.
  intros c Hc. cbn in Hc.
  repeat (destruct Hc as [<-|Hc]; [cbn; lia|]). destruct Hc.
Qed.

Lemma toLowerPtr_ascii_witness :
  toLowerPtr (fun s => s) None = None /\
  exists lower,
    toLowerPtr (fun s => s) (Some "GitHub.com/Foo") = Some lower /\
    String.length lower = String.length "GitHub.com/Foo" /\
    is_ascii lower /\ no_upper lower /\
    toLowerPtr (fun s => s) (Some lower) = Some lower.
Proof.
  apply (toLowerPtr_ascii (fun s => s) "GitHub.com/Foo"). apply is_ascii_GitHub.
Defined.

Example toLowerPtr_GitHub :
  toLowerPtr (fun s => s) (Some "GitHub.com/Foo") = Some "github.com/foo".
Proof. reflexivity. Qed.

(** ** The node ID resolver, further *)

(** For every Source node the resolver follows the first entries: the
    first Name of the first Namespace when there is one, otherwise the first
    Namespace when there is one, otherwise the Source itself. *)
Theorem getIDfromNode_Source_precedence (p : Source.t) :
  getIDfromNode (of_Source (Some p)) =
    Return
      (match Source.Namespaces p with
       | [] => Source.ID p
       | ns :: _ =>
           match SourceNamespace.Names ns with
           | [] => SourceNamespace.ID ns
           | n :: _ => SourceName.ID n
           end
       end, None).
Proof. apply getIDfromNode_Source. Qed.

(** Every variant with a direct identifier resolves to that identifier,
    without error. *)
Theorem getIDfromNode_flat (node : Node) (p : Flat.t) :
  flat_pointer node = Some (Some p) ->
  getIDfromNode node = Return (Flat.ID p, None).
Proof.
  destruct node; cbn [flat_pointer]; intros [= ->]; reflexivity.
Qed.

Lemma getIDfromNode_flat_witness :
  getIDfromNode (of_IsDependency (Some {| Flat.ID := "D7" |})) = Return ("D7", None).
Proof.
  apply (getIDfromNode_flat (of_IsDependency (Some {| Flat.ID := "D7" |}))
           {| Flat.ID := "D7" |}).
  reflexivity.
Defined.

Lemma getIDfromNode_known (node : Node) :
  typed_nil node = false ->
  (node = nil_Node \/ exists repr, node = of_other_type repr) \/
  exists id, getIDfromNode node = Return (id, None).
Proof.
  destruct node as [ |v|v|v|v|v|v|v|v|v|v|v|v|v|v|v|v|v|v|v|v|v|v|v|repr];
    cbn [typed_nil]; intros Hv;
    try (left; left; reflexivity);
    try (left; right; eexists; reflexivity);
    (destruct v as [p|]; [|discriminate Hv]); right;
    try (eexists; reflexivity).
  - eexists. apply getIDfromNode_Package.
  - eexists. apply getIDfromNode_Source.
  - eexists. apply getIDfromNode_Vulnerability_first.
Qed.

(** The resolver returns an error only for the nil interface and for a
    value of a type outside the switch; the identifier is then empty and
    the message is "unknown type: " followed by the value. *)
Theorem getIDfromNode_error (node : Node) (id err : string) :
  getIDfromNode node = Return (id, Some err) ->
  id = "" /\ err = "unknown type: " ++ render node /\
  (node = nil_Node \/ exists repr, node = of_other_type repr).
Proof.
  intros H.
  destruct (typed_nil node) eqn:Hnil.
  - rewrite (getIDfromNode_typed_nil node Hnil) in H. discriminate H.
  - destruct (getIDfromNode_known node Hnil) as [[->|(repr & ->)]|(id' & Hid)].
    + cbn in H. injection H as <- <-. repeat split. left. reflexivity.
    + cbn in H. injection H as <- <-. repeat split. right. eauto.
    + rewrite Hid in H. discriminate H.
Qed.

Lemma getIDfromNode_error_witness :
  "" = "" /\ "unknown type: 42" = "unknown type: " ++ render (of_other_type "42") /\
  (of_other_type "42" = nil_Node \/ exists repr, of_other_type "42" = of_other_type repr).
Proof.
  apply (getIDfromNode_error (of_other_type "42") "" "unknown type: 42").
  reflexivity.
Defined.


(** ** The chunker, further *)

Section ChunkerRange.

Context {T : Type}.

(** The loop while the upper bounds fit in [int]. *)
Lemma chunk_loop_fit (c : list T) size :
  0 < size -> len c <= GoInt.MaxInt ->
  forall todo i result,
    0 <= i -> (i + Z.of_nat todo) * size <= len c + size - 1 ->
    (i + Z.of_nat todo) * size <= GoInt.MaxInt ->
    chunk_loop todo c size i result =
      Return (result ++ map (group_at c (Z.to_nat size)) (seq (Z.to_nat i) todo))%list.
Proof.
  intros Hsize Hmax. pose proof (len_nonneg c) as Hc.
  induction todo as [|todo IH]; intros i result Hi Hend Hfit.
  - cbn [chunk_loop seq map]. rewrite app_nil_r. reflexivity.
  - cbn [chunk_loop]. unfold GoInt.add, GoInt.mul.
    assert (Hi1 : GoInt.wrap_int (i + 1) = i + 1)
      by (apply wrap_int_id; unfold GoInt.MinInt, GoInt.MaxInt in *; nia).
    rewrite Hi1.
    assert (Hlo : GoInt.wrap_int (i * size) = i * size)
      by (apply wrap_int_id; unfold GoInt.MinInt, GoInt.MaxInt in *; nia).
    assert (Hhi : GoInt.wrap_int ((i + 1) * size) = (i + 1) * size)
      by (apply wrap_int_id; unfold GoInt.MinInt, GoInt.MaxInt in *; nia).
    rewrite Hlo, Hhi.
    assert (Hbelow : i * size < len c) by nia.
    assert (Hgroup :
      slice c (i * size)
        (if (i + 1) * size >? len c then len c else (i + 1) * size)
      = Return (group_at c (Z.to_nat size) (Z.to_nat i))).
    { unfold group_at.
      replace (Z.to_nat i * Z.to_nat size)%nat with (Z.to_nat (i * size))
        by (rewrite Z2Nat.inj_mul; lia).
      rewrite Z.gtb_ltb.
      destruct (Z.ltb_spec (len c) ((i + 1) * size)) as [Hlt|Hge].
      - rewrite slice_ok by nia. f_equal.
        rewrite !firstn_all2; [reflexivity| |];
          rewrite length_skipn; unfold len in *; lia.
      - rewrite slice_ok by nia. do 2 f_equal. lia. }
    rewrite Hgroup. cbn [bind].
    rewrite IH by lia.
    replace (Z.to_nat (i + 1)) with (S (Z.to_nat i)) by lia.
    cbn [seq map]. rewrite <- app_assoc. reflexivity.
Qed.


Lemma chunksNum_value (c : list T) size :
  0 < size -> len c <= GoInt.MaxInt ->
  (if negb (GoInt.rem (len c) size =? 0)
   then GoInt.add (GoInt.div (len c) size) 1
   else GoInt.div (len c) size)
  = groups_count (len c) size.
Proof.
  intros Hsize Hmax. pose proof (len_nonneg c) as Hc.
  unfold GoInt.div, GoInt.rem, GoInt.add, groups_count.
  pose proof (Z.div_mod (len c) size ltac:(lia)) as Hdm.
  pose proof (Z.mod_pos_bound (len c) size Hsize) as Hr.
  assert (Hq : 0 <= len c / size <= len c).
  { split; [apply Z.div_pos; lia|]. apply Z.div_le_upper_bound; nia. }
  assert (Hquot : Z.quot (len c) size = len c / size)
    by (apply Z.quot_div_nonneg; lia).
  rewrite (wrap_int_id (Z.quot (len c) size))
    by (unfold GoInt.MinInt, GoInt.MaxInt in *; lia).
  pose proof (chunksNum_ceil (len c) size Hc Hsize) as Hceil.
  destruct (Z.eqb_spec (Z.rem (len c) size) 0) as [E|E]; cbn [negb] in Hceil |- *.
  - exact Hceil.
  - rewrite Z.rem_mod_nonneg in E by lia.
    rewrite (wrap_int_id (Z.quot (len c) size + 1))
      by (unfold GoInt.MinInt, GoInt.MaxInt in *; nia).
    exact Hceil.
Qed.

Lemma groups_count_bounds n size :
  0 <= n -> 0 < size ->
  0 <= groups_count n size /\
  n <= groups_count n size * size <= n + size - 1.
Proof.
  intros Hn Hsize. unfold groups_count.
  pose proof (Z.div_mod (n + size - 1) size ltac:(lia)) as Hdm.
  pose proof (Z.mod_pos_bound (n + size - 1) size Hsize) as Hr.
  assert (0 <= (n + size - 1) / size) by (apply Z.div_pos; lia).
  nia.
Qed.

Lemma chunk_groups_fit (c : list T) size :
  0 < size -> len c <= GoInt.MaxInt ->
  groups_count (len c) size * size <= GoInt.MaxInt ->
  chunk c size =
    Return (map (group_at c (Z.to_nat size))
                (seq 0 (Z.to_nat (groups_count (len c) size)))).
Proof.
  intros Hsize Hmax Hfit. pose proof (len_nonneg c) as Hc.
  destruct (groups_count_bounds (len c) size Hc Hsize) as (Hn & Hlow & Hup).
  unfold chunk. rewrite (proj2 (Z.leb_gt size 0) Hsize).
  rewrite (chunksNum_value c size Hsize Hmax).
  rewrite (chunk_loop_fit c size Hsize Hmax) by (rewrite ?Z2Nat.id; lia).
  reflexivity.
Qed.

End ChunkerRange.



(** A slice that is not empty and not longer than the size is one group:
    the slice itself. *)
Theorem chunk_single {T} (c : list T) (size : Z) :
  0 < len c -> len c <= size -> size <= GoInt.MaxInt ->
  chunk c size = Return [c].
Proof.
  intros Hc Hsize Hmax.
  assert (Hn : groups_count (len c) size = 1).
  { unfold groups_count. symmetry.
    apply Z.div_unique with (r := len c - 1); lia. }
  rewrite (chunk_groups_fit c size) by (rewrite ?Hn; lia).
  rewrite Hn. change (Z.to_nat 1) with 1%nat. cbn [seq map].
  unfold group_at. cbn [Nat.mul skipn].
  rewrite firstn_all2 by (unfold len in *; lia). reflexivity.
Qed.

Lemma chunk_single_witness :
  chunk [1; 2; 3] GoInt.MaxInt = Return [[1; 2; 3]].
Proof.
  apply (chunk_single [1; 2; 3] GoInt.MaxInt);
    unfold GoInt.MaxInt; cbn; lia.
Defined.

(** ** The content-addressed ID generator, further *)

Lemma Write_app d p q :
  sha256.Write (sha256.Write d p) q = sha256.Write d (p ++ q)%list.
Proof. unfold sha256.Write. symmetry. apply fold_left_app. Qed.

(** The identifier is cut from the SHA-256 checksum of the DNS name space
    followed by the data: the first 16 bytes of the checksum, where only
    the high half of byte 6 and the two high bits of byte 8 are replaced. *)
Theorem generateUUIDKey_checksum (data : list byte) :
  exists sum u,
    sha256.Sum (sha256.Write sha256.New (uuid.NameSpaceDNS ++ data)%list) []
      = Return sum /\
    generateUUIDKey data = Return u /\
    (forall i, (i < 16)%nat -> i <> 6%nat -> i <> 8%nat ->
               nth_error u i = nth_error sum i) /\
    uuid.get u 6 mod 16 = uuid.get sum 6 mod 16 /\
    uuid.get u 8 mod 64 = uuid.get sum 8 mod 64.
Proof.
  unfold generateUUIDKey, uuid.NewHash.
  unfold hash.Sum, hash.Write, hash.Reset, sha256.digest_Hash, sha256.Sum.
  unfold sha256.Reset. rewrite Write_app.
  destruct (digest.checkSum_returns
              (sha256.Write sha256.New (uuid.NameSpaceDNS ++ data)%list))
    as (s & Hs & H32).
  { apply digest.Write_buffer, digest.New_buffer. }
  rewrite Hs. cbn [bind app].
  exists s. eexists. split; [reflexivity|]. split; [reflexivity|].
  do 32 (destruct s as [|? s]; [discriminate H32|]).
  destruct s; [|discriminate H32].
  unfold uuid.copy_into_zero, uuid.get. cbn [app firstn uuid.set nth].
  split; [|split].
  - intros i Hi H6 H8.
    do 16 (destruct i as [|i]; [try reflexivity; congruence|]). lia.
  - match goal with
    | |- context [Z.land (Z_of_byte ?b) _] => destruct b; vm_compute; reflexivity
    end.
  - match goal with
    | |- context [Z.land (Z_of_byte ?b) _] => destruct b; vm_compute; reflexivity
    end.
Qed.
